(** * JupyterChat: the thread items and the streaming reducer of [chat.py]

    A shallow embedding of [jupyterchat/chat.py]: the [ThreadItem] class
    (validation of the sender, the text handed to the markdown converter,
    [update] and [append_text]) and the event loop of
    [ChatDisplay.process_message], which folds the events of one agent
    stream into the list [thread_items].

    Python strings are [string]; dictionaries probed by key are [gmap]s;
    a raised exception is a result of the computation that leaves the
    state reached so far in place. *)

From Stdlib Require Import Ascii String.
From stdpp Require Import gmap strings list fin_maps.

(** ** Python strings *)

Module Py.

(** The line break written [\n] in the source. *)
Definition NL : string := String "010"%char EmptyString.

(** Truthiness of a [str]: only the empty string is falsy. *)
Definition truthy (s : string) : bool :=
  match s with
  | EmptyString => false
  | String _ _ => true
  end.

(** Truthiness of a value that is [None] or a [str]. *)
Definition truthy_opt (o : option string) : bool :=
  match o with
  | None => false
  | Some s => truthy s
  end.

(** [count_from sub skip s]: the occurrences of the (non-empty) [sub]
    found scanning [s] from the left, where the next [skip] characters
    belong to the occurrence just counted and cannot start another. *)
Fixpoint count_from (sub : string) (skip : nat) (s : string) : nat :=
  match s with
  | EmptyString => 0
  | String _ s' =>
      match skip with
      | S k => count_from sub k s'
      | O =>
          if String.prefix sub s
          then S (count_from sub (String.length sub - 1) s')
          else count_from sub 0 s'
      end
  end.

(** [s.count(sub)]: the number of non-overlapping occurrences of [sub]
    in [s]; for the empty [sub] Python answers [len(s) + 1]. *)
Definition count (s sub : string) : nat :=
  match sub with
  | EmptyString => S (String.length s)
  | String _ _ => count_from sub 0 s
  end.

(** The exceptions the modelled code raises.  [InvalidReference] is not
    a Python exception: it stands for a [current_message] that denotes
    no item of the thread, which a run of [process_message] never
    produces (see [run_events_wf]). *)
Inductive exn :=
| ValueError (msg : string)
| KeyError (key : string)
| IndexError (msg : string)
| InvalidReference.

Inductive result (A : Type) :=
| Ok (a : A)
| Raise (e : exn).
Arguments Ok {A} a.
Arguments Raise {A} e.

(** Statements running on a mutable state [S]: the state survives an
    exception, as the objects of a Python program do. *)
Definition M (S A : Type) : Type := S -> S * result A.

Definition ret {S A} (a : A) : M S A := fun s => (s, Ok a).

Definition raise {S A} (e : exn) : M S A := fun s => (s, Raise e).

Definition bind {S A B} (m : M S A) (k : A -> M S B) : M S B :=
  fun s =>
    match m s with
    | (s', Ok a) => k a s'
    | (s', Raise e) => (s', Raise e)
    end.

Definition modify {S} (f : S -> S) : M S unit := fun s => (f s, Ok tt).

(** [d[key]] on a dictionary: [KeyError] when the key is absent. *)
Definition getitem {S V} (d : gmap string V) (key : string) : M S V :=
  match d !! key with
  | Some v => ret v
  | None => raise (KeyError key)
  end.

(** [l[-1]] on a list: [IndexError] when the list is empty. *)
Definition last_item {S A} (l : list A) : M S A :=
  match last l with
  | Some a => ret a
  | None => raise (IndexError "list index out of range")
  end.

End Py.

Import Py.

Declare Scope py_scope.
Delimit Scope py_scope with py.
Notation "x <- m ;; k" := (bind m (fun x => k))
  (at level 100, m at next level, right associativity) : py_scope.
Notation "m ;; k" := (bind m (fun _ => k))
  (at level 100, right associativity) : py_scope.

(** ** The module constants and the widgets *)

Definition _LABEL_COLOURS : gmap string string :=
  <["user" := "green"]> (<["system" := "red"]> (<["agent" := "blue"]>
    (<["tool" := "orange"]> ∅))).

(** [key in d] for a dictionary. *)
Definition contains {V} (d : gmap string V) (key : string) : bool :=
  match d !! key with
  | Some _ => true
  | None => false
  end.

Module markdown2.

(** The HTML produced by the external converter is kept symbolic: it is
    the call [markdown2.markdown(text, extras=...)] itself. *)
Inductive html :=
| markdown (text : string) (extras : list string).

Definition source (h : html) : string :=
  match h with
  | markdown text _ => text
  end.

End markdown2.

Module widgets.

(** [widgets.HTML(value, description=...)]. *)
Record HTML := mkHTML {
  value : markdown2.html;
  description : string
}.

End widgets.

(** ** class ThreadItem *)

Module ThreadItem.

Record t := mk {
  _sender : string;
  _text : string;
  _tool_name : option string;
  _widget : widgets.HTML
}.

Definition unknown_sender (sender : string) : exn :=
  ValueError ("Unknown sender: " +:+ sender).

(** The text that the [html] property hands to [markdown2.markdown]:
    a tool item is wrapped in a headed [json] block, any other item
    gets a closing fence when [text.count("\n```") % 2] is non-zero. *)
Definition html_text (sender text : string) (tool_name : option string)
  : string :=
  if String.eqb sender "tool" then
    let name :=
      match tool_name with
      | Some n => if truthy n then n else "???"
      | None => "???"
      end in
    "### Tool use for: `" +:+ name +:+ "`" +:+ NL +:+ "```json" +:+ NL
      +:+ text +:+ NL +:+ "```" +:+ NL
  else
    text +:+
      (if Nat.eqb (count text (NL +:+ "```") mod 2) 0
       then EmptyString
       else NL +:+ "```" +:+ NL).

Definition html_of (sender text : string) (tool_name : option string)
  : markdown2.html :=
  markdown2.markdown (html_text sender text tool_name)
    ["fenced-code-blocks"; "tables"].

(** The [description] property; [_LABEL_COLOURS[sender]] raises
    [KeyError] on a sender that is not a key. *)
Definition description_of (sender : string) : result string :=
  match _LABEL_COLOURS !! sender with
  | Some colour =>
      Ok ("\(\color{" +:+ colour +:+ "}{" +:+ sender +:+ ":}\)")
  | None => Raise (KeyError sender)
  end.

Definition html (self : t) : markdown2.html :=
  html_of (_sender self) (_text self) (_tool_name self).

Definition description (self : t) : result string :=
  description_of (_sender self).

Definition widget (self : t) : widgets.HTML := _widget self.

Definition sender (self : t) : string := _sender self.

(** [ThreadItem(text, sender, tool_name)]: the membership test is the
    first statement, the four assignments follow it. *)
Definition __init__ (text sender : string) (tool_name : option string)
  : result t :=
  if negb (contains _LABEL_COLOURS sender) then
    Raise (unknown_sender sender)
  else
    match description_of sender with
    | Ok d =>
        Ok {| _sender := sender; _text := text; _tool_name := tool_name;
              _widget := widgets.mkHTML (html_of sender text tool_name) d |}
    | Raise e => Raise e
    end.

Definition with_sender (sender : string) (self : t) : t :=
  {| _sender := sender; _text := _text self;
     _tool_name := _tool_name self; _widget := _widget self |}.

Definition with_description (d : string) (self : t) : t :=
  {| _sender := _sender self; _text := _text self;
     _tool_name := _tool_name self;
     _widget := widgets.mkHTML (widgets.value (_widget self)) d |}.

(** The setter of the [sender] property. *)
Definition set_sender (sender : string) : M t unit :=
  fun self =>
    if negb (contains _LABEL_COLOURS sender) then
      (self, Raise (unknown_sender sender))
    else
      let self1 := with_sender sender self in
      match description self1 with
      | Ok d => (with_description d self1, Ok tt)
      | Raise e => (self1, Raise e)
      end.

(** The two tails shared by [update] and [append_text]:
    [if tool_name: self._tool_name = tool_name] and
    [self._widget.value = self.html]. *)
Definition store_tool_name (tool_name : option string) (self : t) : t :=
  if truthy_opt tool_name then
    {| _sender := _sender self; _text := _text self;
       _tool_name := tool_name; _widget := _widget self |}
  else self.

Definition render (self : t) : t :=
  {| _sender := _sender self; _text := _text self;
     _tool_name := _tool_name self;
     _widget :=
       widgets.mkHTML (html self) (widgets.description (_widget self)) |}.

Definition with_text (text : string) (self : t) : t :=
  {| _sender := _sender self; _text := text;
     _tool_name := _tool_name self; _widget := _widget self |}.

Definition update (text : string) (tool_name : option string) (self : t)
  : t :=
  render (store_tool_name tool_name (with_text text self)).

Definition append_text (text : string) (tool_name : option string)
  (self : t) : t :=
  render (store_tool_name tool_name (with_text (_text self +:+ text) self)).

End ThreadItem.

(** ** The events of the agent stream *)

(** A content part is a dictionary probed by key ([type], [text], [name],
    [input]); the values the reducer reads are strings. *)
Abbreviation Part := (gmap string string).

(** [event['event']] and [event['data']]: the latter maps [chunk] and
    [output] to the [content] list of the message stored there. *)
Record Event := mkEvent {
  event : string;
  data : gmap string (list Part)
}.

(** The object returned by [app.astream_events(...)]: its printed form,
    which the status lines quote, and the events it yields. *)
Record Stream := mkStream {
  repr : string;
  events : list Event
}.

(** ['type' in c and c['type'] == ty]. *)
Definition has_type (c : Part) (ty : string) : bool :=
  contains c "type" &&
  match c !! "type" with
  | Some v => String.eqb v ty
  | None => false
  end.

(** ** class ChatDisplay *)

Module ChatDisplay.

(** [debug] is the value of the debug text area when there is one. *)
Record t := mk {
  thread_items : list ThreadItem.t;
  _status : string;
  debug : option string
}.

(** The children of the [thread] box, rebuilt from the items. *)
Definition thread_children (self : t) : list widgets.HTML :=
  ThreadItem.widget <$> thread_items self.

(** The setter of the [status] property. *)
Definition set_status (value : string) (self : t) : t :=
  {| thread_items := thread_items self;
     _status := value;
     debug := (fun log => log +:+ value +:+ NL) <$> debug self |}.

Definition with_items (items : list ThreadItem.t) (self : t) : t :=
  {| thread_items := items; _status := _status self; debug := debug self |}.

(** [_push_new_message]: the new item is the last of [thread_items];
    the reference returned is its position in that list. *)
Definition _push_new_message (text sender : string)
  (tool_name : option string) : M t nat :=
  fun self =>
    match ThreadItem.__init__ text sender tool_name with
    | Ok item =>
        (with_items (thread_items self ++ [item]) self,
         Ok (length (thread_items self)))
    | Raise e => (self, Raise e)
    end.

(** The state of one run of [process_message]: the display and the
    local variable [current_message], a reference to an item of the
    thread or [None]. *)
Record session := mkSession {
  self : t;
  current_message : option nat
}.

Definition on_self {A} (m : M t A) : M session A :=
  fun s =>
    let '(d, r) := m (self s) in
    ({| self := d; current_message := current_message s |}, r).

Definition set_current (ref : option nat) : M session unit :=
  modify (fun s => {| self := self s; current_message := ref |}).

(** [current_message is None or current_message.sender != role]. *)
Definition is_none_or_not (role : string) : M session bool :=
  fun s =>
    match current_message s with
    | None => (s, Ok true)
    | Some i =>
        match thread_items (self s) !! i with
        | Some item => (s, Ok (negb (String.eqb (ThreadItem.sender item) role)))
        | None => (s, Raise InvalidReference)
        end
    end.

(** A method call [current_message.f(...)] mutating the item in place. *)
Definition on_current (f : ThreadItem.t -> ThreadItem.t) : M session unit :=
  fun s =>
    match current_message s with
    | Some i =>
        match thread_items (self s) !! i with
        | Some item =>
            ({| self := with_items (<[i := f item]> (thread_items (self s)))
                          (self s);
                current_message := current_message s |}, Ok tt)
        | None => (s, Raise InvalidReference)
        end
    | None => (s, Raise InvalidReference)
    end.

(** [if current_message is None or current_message.sender != role:
       current_message = self._push_new_message(sender=role, ...)]. *)
Definition ensure_current (role : string) (tool_name : option string)
  : M session unit :=
  (fresh <- is_none_or_not role ;;
   if fresh : bool then
     (ref <- on_self (_push_new_message EmptyString role tool_name) ;;
      set_current (Some ref))
   else ret tt)%py.

Fixpoint for_each {S A} (l : list A) (body : A -> M S unit) : M S unit :=
  match l with
  | [] => ret tt
  | a :: l' => (body a ;; for_each l' body)%py
  end.

(** The body of [for c in content] under [on_chat_model_stream]. *)
Definition stream_part (c : Part) : M session unit :=
  if has_type c "text" then
    (ensure_current "agent" None ;;
     text <- getitem c "text" ;;
     on_current (ThreadItem.append_text text None))%py
  else if has_type c "tool_use" then
    (ensure_current "tool" (c !! "name") ;;
     if contains c "input" then
       (input <- getitem c "input" ;;
        on_current (ThreadItem.append_text input (c !! "name")))
     else ret tt)%py
  else ret tt.

(** The branch under [on_chat_model_end], after [c = content[-1]]. *)
Definition final_part (c : Part) : M session unit :=
  if has_type c "text" then
    (chat_output <- getitem c "text" ;;
     ensure_current "agent" None ;;
     on_current (ThreadItem.update chat_output None))%py
  else if has_type c "tool_use" then
    if contains c "input" then
      (tool_output <- getitem c "input" ;;
       ensure_current "tool" (c !! "name") ;;
       on_current (ThreadItem.update tool_output (c !! "name")))%py
    else ret tt
  else ret tt.

(** The body of [async for event in stream]. *)
Definition handle_event (ev : Event) : M session unit :=
  (on_self (modify (set_status (event ev))) ;;
   if String.eqb (event ev) "on_chat_model_start" then
     set_current None
   else if String.eqb (event ev) "on_chat_model_stream" then
     (content <- getitem (data ev) "chunk" ;;
      for_each content stream_part)
   else if String.eqb (event ev) "on_chat_model_end" then
     (content <- getitem (data ev) "output" ;;
      c <- last_item content ;;
      final_part c)
   else ret tt)%py.

(** The loop over the stream: an exception ends it. *)
Definition run_events (evs : list Event) : M session unit :=
  for_each evs handle_event.

(** The state in which the loop is entered: the three status lines
    are written and [current_message = None]. *)
Definition open_stream (stream : Stream) (self0 : t) : session :=
  let d1 := set_status "Sending message" self0 in
  let d2 := set_status ("Stream created: " +:+ repr stream) d1 in
  let d3 := set_status ("Stream handler entered: " +:+ repr stream) d2 in
  {| self := d3; current_message := None |}.

(** [process_message]: [stream] is what the agent returned for the
    submitted message. *)
Definition process_message (stream : Stream) : M t unit :=
  fun self0 =>
    let '(s, r) := run_events (events stream) (open_stream stream self0) in
    (self s, r).

End ChatDisplay.

(** ** Notions used in the statements *)

(** The fixed set of roles. *)
Definition valid_sender (s : string) : Prop :=
  s = "user" ∨ s = "system" ∨ s = "agent" ∨ s = "tool".

(** The closing fence that [html] appends. *)
Definition closing_fence : string := NL +:+ "```" +:+ NL.

(** The marker that [html] counts: a line break followed by three
    backticks. *)
Definition line_fence : string := NL +:+ "```".

(** The reference held in [current_message], when there is one, denotes
    the last item of the thread. *)
Definition current_is_last (s : ChatDisplay.session) : Prop :=
  match ChatDisplay.current_message s with
  | None => True
  | Some i => S i = length (ChatDisplay.thread_items (ChatDisplay.self s))
  end.

(** [new] keeps every item of [old] in its place, and unchanged unless it
    is the last one of [old]. *)
Definition extends_thread (old new : list ThreadItem.t) : Prop :=
  length old ≤ length new ∧ ∀ i, S i < length old → new !! i = old !! i.

(** The three outcomes that the append-only claim allows for one event:
    the list unchanged, its last item changed, or one item appended. *)
Definition one_change (old new : list ThreadItem.t) : Prop :=
  new = old ∨
  (∃ init x y, old = init ++ [x] ∧ new = init ++ [y]) ∨
  (∃ item, new = old ++ [item]).

(** The items of a session. *)
Definition items_of (s : ChatDisplay.session) : list ThreadItem.t :=
  ChatDisplay.thread_items (ChatDisplay.self s).

(** The session after [value] is written to the status. *)
Definition with_status (value : string) (s : ChatDisplay.session)
  : ChatDisplay.session :=
  {| ChatDisplay.self := ChatDisplay.set_status value (ChatDisplay.self s);
     ChatDisplay.current_message := ChatDisplay.current_message s |}.

(** The session after [item] is pushed and made the current message. *)
Definition pushed (s : ChatDisplay.session) (item : ThreadItem.t)
  : ChatDisplay.session :=
  {| ChatDisplay.self :=
       ChatDisplay.with_items (items_of s ++ [item]) (ChatDisplay.self s);
     ChatDisplay.current_message := Some (length (items_of s)) |}.

(** The items that [_push_new_message(sender="agent")] and
    [_push_new_message(sender="tool", tool_name=...)] create. *)
Definition blank_agent : ThreadItem.t :=
  ThreadItem.mk "agent" EmptyString None
    (widgets.mkHTML (ThreadItem.html_of "agent" EmptyString None)
       "\(\color{blue}{agent:}\)").

Definition blank_tool (tool_name : option string) : ThreadItem.t :=
  ThreadItem.mk "tool" EmptyString tool_name
    (widgets.mkHTML (ThreadItem.html_of "tool" EmptyString tool_name)
       "\(\color{orange}{tool:}\)").

(** [current_message is None or current_message.sender != role], for a
    reference that denotes an item. *)
Definition current_differs (role : string) (s : ChatDisplay.session) : Prop :=
  ChatDisplay.current_message s = None ∨
  ∃ i item, ChatDisplay.current_message s = Some i ∧
    items_of s !! i = Some item ∧ ThreadItem._sender item ≠ role.

(** The tool item that a tool-call part of a token event opens. *)
Definition tool_item_of (c : Part) : ThreadItem.t :=
  match c !! "input" with
  | Some input =>
      ThreadItem.append_text input (c !! "name") (blank_tool (c !! "name"))
  | None => blank_tool (c !! "name")
  end.

(** A computation keeps the reference of [current_message] on the last
    item and only extends the thread. *)
Definition sound {A} (m : M ChatDisplay.session A) : Prop :=
  ∀ s, current_is_last s →
    current_is_last (m s).1 ∧ extends_thread (items_of s) (items_of (m s).1).

(** A computation never finds [current_message] denoting no item. *)
Definition safe {A} (m : M ChatDisplay.session A) : Prop :=
  ∀ s, current_is_last s → (m s).2 ≠ Raise InvalidReference.

(** The current message denotes an item of the thread. *)
Definition has_current (s : ChatDisplay.session) : Prop :=
  ∃ i item, ChatDisplay.current_message s = Some i ∧
    items_of s !! i = Some item.

(** The events used in the examples. *)
Definition text_part (text : string) : Part :=
  <["type" := "text"]> (<["text" := text]> ∅).

Definition tool_part (name input : string) : Part :=
  <["type" := "tool_use"]> (<["name" := name]> (<["input" := input]> ∅)).

Definition turn_start : Event := mkEvent "on_chat_model_start" ∅.

Definition token (content : list Part) : Event :=
  mkEvent "on_chat_model_stream" (<["chunk" := content]> ∅).

Definition turn_end (content : list Part) : Event :=
  mkEvent "on_chat_model_end" (<["output" := content]> ∅).

(** A display whose thread holds one user item, as after the user has
    submitted [hello]. *)
Definition hello_item : ThreadItem.t :=
  ThreadItem.mk "user" "hello" None
    (widgets.mkHTML (ThreadItem.html_of "user" "hello" None)
       "\(\color{green}{user:}\)").

Definition hello_display : ChatDisplay.t :=
  ChatDisplay.mk [hello_item] "Message appended" None.

(** ** The rest of the module *)

(** [sep.join(l)]. *)
Fixpoint join (sep : string) (l : list string) : string :=
  match l with
  | [] => EmptyString
  | x :: l' =>
      match l' with
      | [] => x
      | _ :: _ => x +:+ sep +:+ join sep l'
      end
  end.

(** A generator consumed from the left: the first exception ends it. *)
Fixpoint collect {A B} (f : A → result B) (l : list A) : result (list B) :=
  match l with
  | [] => Ok []
  | a :: l' =>
      match f a with
      | Ok b =>
          match collect f l' with
          | Ok bs => Ok (b :: bs)
          | Raise e => Raise e
          end
      | Raise e => Raise e
      end
  end.

(** The table of highlighting styles, in the order of the source. *)
Definition _CODE_STYLE_INFO : list (string * list (string * string)) := [
  (EmptyString, [("bg", "#f8f8f8")]);
  ("bp", [("c", "#008000")]);
  ("c", [("c", "#408080"); ("s", "italic")]);
  ("c1", [("c", "#408080"); ("s", "italic")]);
  ("ch", [("c", "#408080"); ("s", "italic")]);
  ("cm", [("c", "#408080"); ("s", "italic")]);
  ("cp", [("c", "#BC7A00")]);
  ("cpf", [("c", "#408080"); ("s", "italic")]);
  ("cs", [("c", "#408080"); ("s", "italic")]);
  ("dl", [("c", "#BA2121")]);
  ("err", [("br", "1px solid #FF0000")]);
  ("fm", [("c", "#0000FF")]);
  ("gd", [("c", "#A00000")]);
  ("ge", [("s", "italic")]);
  ("gh", [("c", "#000080"); ("w", "bold")]);
  ("gi", [("c", "#00A000")]);
  ("go", [("c", "#888888")]);
  ("gp", [("c", "#000080"); ("w", "bold")]);
  ("gr", [("c", "#FF0000")]);
  ("gs", [("w", "bold")]);
  ("gt", [("c", "#0044DD")]);
  ("gu", [("c", "#800080"); ("w", "bold")]);
  ("hll", [("bg", "#ffffcc")]);
  ("il", [("c", "#666666")]);
  ("k", [("c", "#008000"); ("w", "bold")]);
  ("kc", [("c", "#008000"); ("w", "bold")]);
  ("kd", [("c", "#008000"); ("w", "bold")]);
  ("kn", [("c", "#008000"); ("w", "bold")]);
  ("kp", [("c", "#008000")]);
  ("kr", [("c", "#008000"); ("w", "bold")]);
  ("kt", [("c", "#B00040")]);
  ("m", [("c", "#666666")]);
  ("mb", [("c", "#666666")]);
  ("mf", [("c", "#666666")]);
  ("mh", [("c", "#666666")]);
  ("mi", [("c", "#666666")]);
  ("mo", [("c", "#666666")]);
  ("na", [("c", "#7D9029")]);
  ("nb", [("c", "#008000")]);
  ("nc", [("c", "#0000FF"); ("w", "bold")]);
  ("nd", [("c", "#AA22FF")]);
  ("ne", [("c", "#D2413A"); ("w", "bold")]);
  ("nf", [("c", "#0000FF")]);
  ("ni", [("c", "#999999"); ("w", "bold")]);
  ("nl", [("c", "#A0A000")]);
  ("nn", [("c", "#0000FF"); ("w", "bold")]);
  ("no", [("c", "#880000")]);
  ("nt", [("c", "#008000"); ("w", "bold")]);
  ("nv", [("c", "#19177C")]);
  ("o", [("c", "#666666")]);
  ("ow", [("c", "#AA22FF"); ("w", "bold")]);
  ("s", [("c", "#BA2121")]);
  ("s1", [("c", "#BA2121")]);
  ("s2", [("c", "#BA2121")]);
  ("sa", [("c", "#BA2121")]);
  ("sb", [("c", "#BA2121")]);
  ("sc", [("c", "#BA2121")]);
  ("sd", [("c", "#BA2121"); ("s", "italic")]);
  ("se", [("c", "#BB6622"); ("w", "bold")]);
  ("sh", [("c", "#BA2121")]);
  ("si", [("c", "#BB6688"); ("w", "bold")]);
  ("sr", [("c", "#BB6688")]);
  ("ss", [("c", "#19177C")]);
  ("sx", [("c", "#008000")]);
  ("vc", [("c", "#19177C")]);
  ("vg", [("c", "#19177C")]);
  ("vi", [("c", "#19177C")]);
  ("vm", [("c", "#19177C")]);
  ("w", [("c", "#bbbbbb")])
].

(** The dictionary [style_items] local to [_get_code_css]. *)
Definition style_items : gmap string string :=
  <["bg" := "background"]> (<["br" := "border"]> (<["c" := "color"]>
    (<["s" := "font-style"]> (<["w" := "font-weight"]> ∅)))).

(** [style_items[k] + ": " + v]. *)
Definition declaration (kv : string * string) : result string :=
  match style_items !! kv.1 with
  | Some property => Ok (property +:+ ": " +:+ kv.2)
  | None => Raise (KeyError kv.1)
  end.

(** One rule of the style sheet, for one entry of the table. *)
Definition rule (entry : string * list (string * string)) : result string :=
  match collect declaration entry.2 with
  | Ok declarations =>
      Ok (".codehilite"
            +:+ (if truthy entry.1 then " ." +:+ entry.1 else EmptyString)
            +:+ " { " +:+ join "; " declarations +:+ " }")
  | Raise e => Raise e
  end.

(** The string [unpacked]: the rules of a table, one to a line. *)
Definition unpack (table : list (string * list (string * string)))
  : result string :=
  match collect rule table with
  | Ok rules => Ok (join NL rules)
  | Raise e => Raise e
  end.

(** [_get_code_css], on the module variable [_CODE_CSS]. *)
Definition _get_code_css : M (option string) string :=
  fun _CODE_CSS =>
    match _CODE_CSS with
    | None =>
        match unpack _CODE_STYLE_INFO with
        | Ok unpacked =>
            let css :=
              "<style>" +:+ NL +:+ unpacked +:+ NL +:+ "</style>" +:+ NL in
            (Some css, Ok css)
        | Raise e => (None, Raise e)
        end
    | Some css => (Some css, Ok css)
    end.

(** What [asyncio] answers to [send_message]: the printed forms of the
    event loop and of the task it creates. *)
Record asyncio := mkAsyncio {
  run_loop : string;
  created_task : string
}.

Module ChatWidget.

(** The whole display: the fields of [ChatDisplay.t], the value of the
    status label, the value of the input area, the item that the task in
    [_message_task] is to process, and the module variable [_CODE_CSS]
    that the status setter reads and writes. *)
Record t := mk {
  chat : ChatDisplay.t;
  status_label : string;
  input : string;
  _message_task : option nat;
  _CODE_CSS : option string
}.

(** The setter of the [status] property, statement by statement:
    [_status], then the label from [_get_code_css()], then the debug
    area. *)
Definition set_status (value : string) : M t unit :=
  fun w =>
    let d := chat w in
    match _get_code_css (_CODE_CSS w) with
    | (cache, Ok css) =>
        ({| chat :=
              ChatDisplay.mk (ChatDisplay.thread_items d) value
                ((fun log => log +:+ value +:+ NL) <$> ChatDisplay.debug d);
            status_label := css +:+ "Status: " +:+ value;
            input := input w;
            _message_task := _message_task w;
            _CODE_CSS := cache |}, Ok tt)
    | (cache, Raise e) =>
        ({| chat :=
              ChatDisplay.mk (ChatDisplay.thread_items d) value
                (ChatDisplay.debug d);
            status_label := status_label w;
            input := input w;
            _message_task := _message_task w;
            _CODE_CSS := cache |}, Raise e)
    end.

(** [ChatDisplay(app, debug)]: the fields as first assigned, then
    [self.status = "Idle"]. *)
Definition __init__ (debug : bool) (cache : option string)
  : t * result unit :=
  set_status "Idle"
    {| chat :=
         ChatDisplay.mk [] EmptyString
           (if debug then Some EmptyString else None);
       status_label := EmptyString;
       input := EmptyString;
       _message_task := None;
       _CODE_CSS := cache |}.

Definition on_chat {A} (m : M ChatDisplay.t A) : M t A :=
  fun w =>
    let '(d, r) := m (chat w) in
    ({| chat := d; status_label := status_label w; input := input w;
        _message_task := _message_task w; _CODE_CSS := _CODE_CSS w |}, r).

Definition set_input (value : string) : M t unit :=
  modify (fun w =>
    {| chat := chat w; status_label := status_label w; input := value;
       _message_task := _message_task w; _CODE_CSS := _CODE_CSS w |}).

Definition set_message_task (item : nat) : M t unit :=
  modify (fun w =>
    {| chat := chat w; status_label := status_label w; input := input w;
       _message_task := Some item; _CODE_CSS := _CODE_CSS w |}).

(** [send_message]: the click handler of the button. *)
Definition send_message (env : asyncio) : M t unit :=
  (set_status "User clicked" ;;
   message <- (fun w => (w, Ok (input w))) ;;
   set_status ("Got message: " +:+ message) ;;
   set_input EmptyString ;;
   item <- on_chat (ChatDisplay._push_new_message message "user" None) ;;
   set_status "Message appended" ;;
   set_status ("Have run loop: " +:+ run_loop env) ;;
   set_message_task item ;;
   set_status ("Created task: " +:+ created_task env))%py.

End ChatWidget.

(** ** Notions used in the further properties *)

(** The calls that change a thread item after its construction. *)
Inductive method :=
| call_update (text : string) (tool_name : option string)
| call_append_text (text : string) (tool_name : option string)
| call_set_sender (sender : string).

(** The item after one call; an assignment to [sender] that raises
    leaves the item as [set_sender] leaves it. *)
Definition call (m : method) (self : ThreadItem.t) : ThreadItem.t :=
  match m with
  | call_update text tn => ThreadItem.update text tn self
  | call_append_text text tn => ThreadItem.append_text text tn self
  | call_set_sender sender => (ThreadItem.set_sender sender self).1
  end.

Definition calls (ms : list method) (self : ThreadItem.t) : ThreadItem.t :=
  fold_left (fun item m => call m item) ms self.

(** The widget of an item shows the label, and the HTML, of its fields. *)
Definition label_in_sync (item : ThreadItem.t) : Prop :=
  ThreadItem.description item =
    Ok (widgets.description (ThreadItem._widget item)).

Definition html_in_sync (item : ThreadItem.t) : Prop :=
  widgets.value (ThreadItem._widget item) = ThreadItem.html item.

(** The marker and the fence of [html], character by character. *)
Definition LF : string := String "010"%char "```".

Definition FENCE : string := String "010"%char (String.append "```" NL).

(** An invariant of the session that a computation keeps, whatever its
    outcome. *)
Definition keeps (I : ChatDisplay.session → Prop) {A}
  (m : M ChatDisplay.session A) : Prop :=
  ∀ s, I s → I (m s).1.

(** The session after [current_message = None], and after the item at
    the reference [i] is replaced by [item]. *)
Definition reset (s : ChatDisplay.session) : ChatDisplay.session :=
  {| ChatDisplay.self := ChatDisplay.self s;
     ChatDisplay.current_message := None |}.

Definition edited (s : ChatDisplay.session) (i : nat) (item : ThreadItem.t)
  : ChatDisplay.session :=
  {| ChatDisplay.self :=
       ChatDisplay.with_items (<[i := item]> (items_of s))
         (ChatDisplay.self s);
     ChatDisplay.current_message := Some i |}.

(** What an invariant must survive to be kept by the content parts: the
    push of an empty agent or tool item, and [update] or [append_text] on
    the current message. *)
Record part_invariant (I : ChatDisplay.session → Prop) : Prop := {
  inv_push_agent : ∀ s, I s → I (pushed s blank_agent);
  inv_push_tool : ∀ s tn, I s → I (pushed s (blank_tool tn));
  inv_update : ∀ s i item text tn,
    I s → ChatDisplay.current_message s = Some i →
    items_of s !! i = Some item →
    I (edited s i (ThreadItem.update text tn item));
  inv_append_text : ∀ s i item text tn,
    I s → ChatDisplay.current_message s = Some i →
    items_of s !! i = Some item →
    I (edited s i (ThreadItem.append_text text tn item))
}.

(** And to be kept by whole events: the status line and the reset. *)
Record event_invariant (I : ChatDisplay.session → Prop) : Prop := {
  inv_parts : part_invariant I;
  inv_status : ∀ value s, I s → I (with_status value s);
  inv_reset : ∀ s, I s → I (reset s)
}.

(** The body of the loop after the status line. *)
Definition dispatch (ev : Event) : M ChatDisplay.session unit :=
  if String.eqb (event ev) "on_chat_model_start" then
    ChatDisplay.set_current None
  else if String.eqb (event ev) "on_chat_model_stream" then
    (content <- getitem (data ev) "chunk" ;;
     ChatDisplay.for_each content ChatDisplay.stream_part)%py
  else if String.eqb (event ev) "on_chat_model_end" then
    (content <- getitem (data ev) "output" ;;
     c <- last_item content ;;
     ChatDisplay.final_part c)%py
  else ret tt.

(** The items that the reducer creates: agent and tool items. *)
Definition from_reducer (item : ThreadItem.t) : Prop :=
  ThreadItem._sender item = "agent" ∨ ThreadItem._sender item = "tool".

(** The widget of an item shows its label and its HTML. *)
Definition rendered (item : ThreadItem.t) : Prop :=
  html_in_sync item ∧ label_in_sync item.

(** The thread is [old] followed by items that satisfy [Q], and the
    current message, if any, is one of the latter. *)
Definition history (old : list ThreadItem.t) (Q : ThreadItem.t → Prop)
  (s : ChatDisplay.session) : Prop :=
  ∃ added,
    items_of s = old ++ added ∧ Forall Q added ∧
    match ChatDisplay.current_message s with
    | None => True
    | Some i => length old ≤ i
    end.

(** The exceptions that a run of [process_message] can end with. *)
Definition stream_error (e : exn) : Prop :=
  e = KeyError "chunk" ∨ e = KeyError "output" ∨ e = KeyError "text" ∨
  e = IndexError "list index out of range".

(** The shape that the reducer needs of a content part and of an event:
    a text part has its [text]; a token event has its [chunk], all of
    whose parts are well formed; a turn-end event has its [output], which
    is not empty and whose last part is well formed. *)
Definition well_formed_part (c : Part) : Prop :=
  c !! "type" = Some "text" → is_Some (c !! "text").

Definition well_formed_event (ev : Event) : Prop :=
  (event ev = "on_chat_model_stream" →
     ∃ content, data ev !! "chunk" = Some content ∧
       Forall well_formed_part content) ∧
  (event ev = "on_chat_model_end" →
     ∃ content c, data ev !! "output" = Some content ∧
       last content = Some c ∧ well_formed_part c).

(** The lines that the events leave in the debug area, and the status
    after them. *)
Definition status_lines (evs : list Event) : string :=
  fold_right (fun ev rest => event ev +:+ NL +:+ rest) EmptyString evs.

Definition status_after (evs : list Event) (status : string) : string :=
  default status (event <$> last evs).

(** The session has the status [status] and the debug area [log]. *)
Definition shows (status : string) (log : option string)
  (s : ChatDisplay.session) : Prop :=
  ChatDisplay._status (ChatDisplay.self s) = status ∧
  ChatDisplay.debug (ChatDisplay.self s) = log.

(** A token event that carries the one text part [text], and a turn-end
    event whose last output part is the text [final]. *)
Definition text_token (ev : Event) (text : string) : Prop :=
  event ev = "on_chat_model_stream" ∧
  ∃ c, data ev !! "chunk" = Some [c] ∧
    c !! "type" = Some "text" ∧ c !! "text" = Some text.

Definition text_end (ev : Event) (final : string) : Prop :=
  event ev = "on_chat_model_end" ∧
  ∃ content c, data ev !! "output" = Some content ∧
    last content = Some c ∧
    c !! "type" = Some "text" ∧ c !! "text" = Some final.

(** The texts of a list of tokens, end to end. *)
Definition concat_texts (texts : list string) : string :=
  fold_right String.append EmptyString texts.

(** Every property key of a style table is a key of [style_items]. *)
Definition known_keys (table : list (string * list (string * string)))
  : Prop :=
  Forall (fun entry =>
            Forall (fun kv => is_Some (style_items !! kv.1)) entry.2) table.

(** The widget after the user has typed [text] in the input area. *)
Definition typed (text : string) (w : ChatWidget.t) : ChatWidget.t :=
  (ChatWidget.set_input text w).1.

(** The item that [send_message] pushes for the input [text]. *)
Definition user_item (text : string) : ThreadItem.t :=
  ThreadItem.mk "user" text None
    (widgets.mkHTML (ThreadItem.html_of "user" text None)
       "\(\color{green}{user:}\)").

(** The widget after the status setter has written [value], with the
    style sheet [css]. *)
Definition labelled (value css : string) (w : ChatWidget.t) : ChatWidget.t :=
  {| ChatWidget.chat := ChatDisplay.set_status value (ChatWidget.chat w);
     ChatWidget.status_label := css +:+ "Status: " +:+ value;
     ChatWidget.input := ChatWidget.input w;
     ChatWidget._message_task := ChatWidget._message_task w;
     ChatWidget._CODE_CSS := Some css |}.

(** The lines that [send_message] leaves in the debug area. *)
Definition send_message_lines (message : string) (env : asyncio) : string :=
  "User clicked" +:+ NL +:+
  ("Got message: " +:+ message) +:+ NL +:+
  "Message appended" +:+ NL +:+
  ("Have run loop: " +:+ run_loop env) +:+ NL +:+
  ("Created task: " +:+ created_task env) +:+ NL.

(** An event of a kind that the loop does not know. *)
Definition other_event (ev : Event) : Prop :=
  event ev ≠ "on_chat_model_start" ∧
  event ev ≠ "on_chat_model_stream" ∧
  event ev ≠ "on_chat_model_end".

(** A token event that opens a tool call under the name [name], and one
    that carries a further fragment [input] of its input, without a
    name. *)
Definition tool_opening (ev : Event) (c : Part) (name : string) : Prop :=
  event ev = "on_chat_model_stream" ∧
  data ev !! "chunk" = Some [c] ∧
  c !! "type" = Some "tool_use" ∧ c !! "name" = Some name.

Definition tool_fragment (ev : Event) (input : string) : Prop :=
  event ev = "on_chat_model_stream" ∧
  ∃ c, data ev !! "chunk" = Some [c] ∧
    c !! "type" = Some "tool_use" ∧ c !! "name" = None ∧
    c !! "input" = Some input.

(** The senders of the items of a session, and the sender of the item
    that [current_message] denotes. *)
Definition senders_of (s : ChatDisplay.session) : list string :=
  ThreadItem._sender <$> items_of s.

Definition current_sender (s : ChatDisplay.session) : option string :=
  match ChatDisplay.current_message s with
  | Some i => ThreadItem._sender <$> (items_of s !! i)
  | None => None
  end.

(** The item that a part of kind [role] opens: one, unless the current
    message has that sender. *)
Definition opens (cur : option string) (role : string) : list string :=
  if decide (cur = Some role) then [] else [role].

(** The senders of the items that the parts of one token event open, in
    order, when the current message has the sender [cur]: a text part
    opens an agent item and a tool-call part a tool item, each unless
    the item current at that point has that sender; a text part without
    its [text] is the last part handled. *)
Fixpoint roles_opened (cur : option string) (content : list Part)
  : list string :=
  match content with
  | [] => []
  | c :: rest =>
      if has_type c "text" then
        opens cur "agent" ++
          (if contains c "text" then roles_opened (Some "agent") rest
           else [])
      else if has_type c "tool_use" then
        opens cur "tool" ++ roles_opened (Some "tool") rest
      else roles_opened cur rest
  end.

(** How the loop over a stream ends: the stream is exhausted, the body
    of the loop raises on an event, or the stream itself raises an
    exception [e] of the agent's. *)
Inductive run_outcome (E : Type) :=
| completed
| raised (e : exn)
| stream_failed (e : E).
Arguments completed {E}.
Arguments raised {E} e.
Arguments stream_failed {E} e.

(** [process_message] over a stream that yields the events of [stream]
    and then ends, or raises [failure]: [async for] hands the exception
    of the generator on, once the events before it are handled. *)
Definition process_stream {E} (stream : Stream) (failure : option E)
  (d : ChatDisplay.t) : ChatDisplay.t * run_outcome E :=
  match ChatDisplay.process_message stream d with
  | (d', Ok _) =>
      match failure with
      | None => (d', completed)
      | Some e => (d', stream_failed e)
      end
  | (d', Raise e) => (d', raised e)
  end.

(** * Properties *)

(** ** Strings *)

Lemma append_nil_r (s : string) : s +:+ EmptyString = s.
Proof.
  induction s as [|c s IH]; [reflexivity |].
  change (String c (s +:+ EmptyString) = String c s). by rewrite IH.
Qed.

Lemma append_assoc (a b c : string) : (a +:+ b) +:+ c = a +:+ (b +:+ c).
Proof.
  induction a as [|x a IH]; [reflexivity |].
  change (String x ((a +:+ b) +:+ c) = String x (a +:+ (b +:+ c))).
  by rewrite IH.
Qed.

Lemma string_eqb_false (a b : string) : a ≠ b → String.eqb a b = false.
Proof. intros H. by apply String.eqb_neq. Qed.

(** ** The senders *)

Lemma label_colours_lookup (s : string) :
  valid_sender s ↔ is_Some (_LABEL_COLOURS !! s).
Proof.
  split.
  - intros [-> | [-> | [-> | ->]]]; vm_compute; by eexists.
  - intros [c Hc]. revert Hc. unfold valid_sender, _LABEL_COLOURS.
    rewrite !lookup_insert, lookup_empty.
    repeat case_decide; subst; intros; try discriminate; tauto.
Qed.

Lemma contains_label_colours (s : string) :
  contains _LABEL_COLOURS s = true ↔ valid_sender s.
Proof.
  rewrite label_colours_lookup. unfold contains.
  destruct (_LABEL_COLOURS !! s); split; intros H;
    try reflexivity; try discriminate; try (by eexists).
  by destruct H.
Qed.

Lemma contains_label_colours_false (s : string) :
  contains _LABEL_COLOURS s = false ↔ ¬ valid_sender s.
Proof.
  rewrite <- contains_label_colours.
  destruct (contains _LABEL_COLOURS s); split; congruence.
Qed.

Lemma description_of_valid (s : string) :
  valid_sender s → ∃ d, ThreadItem.description_of s = Ok d.
Proof.
  intros [c Hc]%label_colours_lookup. unfold ThreadItem.description_of.
  rewrite Hc. by eexists.
Qed.

(** ** ThreadItem *)

Lemma init_valid (text sender : string) (tool_name : option string) :
  valid_sender sender →
  ∃ d, ThreadItem.description_of sender = Ok d ∧
       ThreadItem.__init__ text sender tool_name =
         Ok (ThreadItem.mk sender text tool_name
               (widgets.mkHTML (ThreadItem.html_of sender text tool_name) d)).
Proof.
  intros Hv. destruct (description_of_valid sender Hv) as [d Hd].
  exists d. split; [exact Hd |].
  unfold ThreadItem.__init__.
  apply contains_label_colours in Hv. rewrite Hv. simpl. by rewrite Hd.
Qed.

(** C3. Constructing a [ThreadItem] with one of the four roles, or
    assigning one of them to [sender], succeeds: the item holds the given
    sender, text and tool name (the setter changes the sender and the
    label of the widget only).  With any other value both raise
    [ValueError("Unknown sender: ...")] (the spec's InvalidSenderError)
    at the membership test, the first statement: the constructor returns
    no item and the setter leaves every field of the item as it was. *)
Theorem sender_validation (text sender : string) (tool_name : option string)
  (self : ThreadItem.t) :
  (valid_sender sender →
     (∃ item, ThreadItem.__init__ text sender tool_name = Ok item ∧
        ThreadItem._sender item = sender ∧
        ThreadItem._text item = text ∧
        ThreadItem._tool_name item = tool_name) ∧
     (∃ self', ThreadItem.set_sender sender self = (self', Ok tt) ∧
        ThreadItem._sender self' = sender ∧
        ThreadItem._text self' = ThreadItem._text self ∧
        ThreadItem._tool_name self' = ThreadItem._tool_name self ∧
        ThreadItem.description self' =
          Ok (widgets.description (ThreadItem._widget self')))) ∧
  (¬ valid_sender sender →
     ThreadItem.__init__ text sender tool_name =
       Raise (ValueError ("Unknown sender: " +:+ sender)) ∧
     ThreadItem.set_sender sender self =
       (self, Raise (ValueError ("Unknown sender: " +:+ sender)))).
Proof.
  split.
  - intros Hv. split.
    + destruct (init_valid text sender tool_name Hv) as (d & _ & Hi).
      eexists. split; [exact Hi |]. by repeat split.
    + destruct (description_of_valid sender Hv) as [d Hd].
      exists (ThreadItem.with_description d
                (ThreadItem.with_sender sender self)).
      unfold ThreadItem.set_sender, ThreadItem.description.
      apply contains_label_colours in Hv. rewrite Hv. simpl.
      rewrite Hd. by repeat split.
  - intros Hn. apply contains_label_colours_false in Hn.
    unfold ThreadItem.__init__, ThreadItem.set_sender. by rewrite Hn.
Qed.

Lemma sender_validation_witness :
  (∃ item, ThreadItem.__init__ "hello" "agent" None = Ok item ∧
     ThreadItem._sender item = "agent" ∧
     ThreadItem._text item = "hello" ∧
     ThreadItem._tool_name item = None) ∧
  ThreadItem.__init__ "hello" "robot" None =
    Raise (ValueError ("Unknown sender: " +:+ "robot")).
Proof.
  pose (it := ThreadItem.mk "user" "x" None
                (widgets.mkHTML (ThreadItem.html_of "user" "x" None) "u")).
  split.
  - apply (proj1 (sender_validation "hello" "agent" None it)).
    right; right; left; reflexivity.
  - apply (proj2 (sender_validation "hello" "robot" None it)).
    intros [H | [H | [H | H]]]; discriminate H.
Defined.

Lemma update_text (text : string) (tn : option string) (self : ThreadItem.t) :
  ThreadItem._text (ThreadItem.update text tn self) = text.
Proof. unfold ThreadItem.update, ThreadItem.store_tool_name. by destruct (truthy_opt tn). Qed.

Lemma append_text_text (text : string) (tn : option string)
  (self : ThreadItem.t) :
  ThreadItem._text (ThreadItem.append_text text tn self) =
    ThreadItem._text self +:+ text.
Proof.
  unfold ThreadItem.append_text, ThreadItem.store_tool_name.
  by destruct (truthy_opt tn).
Qed.

Lemma update_sender (text : string) (tn : option string)
  (self : ThreadItem.t) :
  ThreadItem._sender (ThreadItem.update text tn self) =
    ThreadItem._sender self.
Proof. unfold ThreadItem.update, ThreadItem.store_tool_name. by destruct (truthy_opt tn). Qed.

Lemma append_text_sender (text : string) (tn : option string)
  (self : ThreadItem.t) :
  ThreadItem._sender (ThreadItem.append_text text tn self) =
    ThreadItem._sender self.
Proof.
  unfold ThreadItem.append_text, ThreadItem.store_tool_name.
  by destruct (truthy_opt tn).
Qed.

Lemma truthy_nonempty (n : string) : n ≠ EmptyString → truthy n = true.
Proof. by destruct n. Qed.

(** C7, as the claim states it, fails: a tool name that is given but is
    the empty string does not replace the stored one, since the guard
    [if tool_name:] tests truthiness. *)
Lemma empty_tool_name_is_not_stored :
  let item :=
    ThreadItem.mk "tool" "{" (Some "calc")
      (widgets.mkHTML (ThreadItem.html_of "tool" "{" (Some "calc"))
         "\(\color{orange}{tool:}\)") in
  ThreadItem._tool_name (ThreadItem.update "{}" (Some EmptyString) item)
    = Some "calc" ∧
  ThreadItem._tool_name (ThreadItem.append_text "}" (Some EmptyString) item)
    = Some "calc" ∧
  Some "calc" ≠ Some EmptyString.
Proof. repeat split. discriminate. Qed.

(** C7 (amended). [update] replaces the text wholesale and [append_text]
    concatenates to it; a non-empty tool name replaces the stored one; a
    call without a tool name, or with an empty one, leaves the stored
    tool name unchanged.  Both re-render the widget from the new
    fields. *)
Theorem update_and_append_text (self : ThreadItem.t) (text : string) :
  (∀ tn, ThreadItem._text (ThreadItem.update text tn self) = text ∧
         ThreadItem._text (ThreadItem.append_text text tn self) =
           ThreadItem._text self +:+ text) ∧
  (∀ n, n ≠ EmptyString →
     ThreadItem._tool_name (ThreadItem.update text (Some n) self) = Some n ∧
     ThreadItem._tool_name (ThreadItem.append_text text (Some n) self)
       = Some n) ∧
  (ThreadItem._tool_name (ThreadItem.update text None self) =
     ThreadItem._tool_name self ∧
   ThreadItem._tool_name (ThreadItem.append_text text None self) =
     ThreadItem._tool_name self) ∧
  (ThreadItem._tool_name (ThreadItem.update text (Some EmptyString) self) =
     ThreadItem._tool_name self ∧
   ThreadItem._tool_name
     (ThreadItem.append_text text (Some EmptyString) self) =
     ThreadItem._tool_name self) ∧
  (∀ tn, widgets.value (ThreadItem._widget (ThreadItem.update text tn self))
           = ThreadItem.html (ThreadItem.update text tn self) ∧
         widgets.value
           (ThreadItem._widget (ThreadItem.append_text text tn self))
           = ThreadItem.html (ThreadItem.append_text text tn self)).
Proof.
  split; [| split; [| split; [| split]]].
  - intros tn. split; [apply update_text | apply append_text_text].
  - intros n Hn.
    unfold ThreadItem.update, ThreadItem.append_text,
      ThreadItem.store_tool_name. simpl.
    by rewrite (truthy_nonempty n Hn).
  - by split.
  - by split.
  - intros tn.
    unfold ThreadItem.update, ThreadItem.append_text,
      ThreadItem.store_tool_name.
    by destruct (truthy_opt tn).
Qed.

Lemma update_and_append_text_witness :
  let item :=
    ThreadItem.mk "tool" "{" None
      (widgets.mkHTML (ThreadItem.html_of "tool" "{" None)
         "\(\color{orange}{tool:}\)") in
  ThreadItem._tool_name (ThreadItem.update "{}" (Some "calc") item)
    = Some "calc" ∧
  ThreadItem._tool_name (ThreadItem.append_text "}" (Some "calc") item)
    = Some "calc".
Proof.
  intros item.
  apply (proj1 (proj2 (update_and_append_text item "{}")) "calc").
  discriminate.
Defined.

(** C8. Appending [a] and then [b] leaves the item exactly as one call
    appending [a ++ b] does: the same stored text, and with it the same
    rendered widget. *)
Theorem append_text_assoc (self : ThreadItem.t) (a b : string) :
  ThreadItem._text
    (ThreadItem.append_text b None (ThreadItem.append_text a None self)) =
  ThreadItem._text (ThreadItem.append_text (a +:+ b) None self) ∧
  ThreadItem.append_text b None (ThreadItem.append_text a None self) =
  ThreadItem.append_text (a +:+ b) None self.
Proof.
  assert (ThreadItem.append_text b None (ThreadItem.append_text a None self)
          = ThreadItem.append_text (a +:+ b) None self) as Heq.
  { unfold ThreadItem.append_text, ThreadItem.store_tool_name,
      ThreadItem.render, ThreadItem.with_text, ThreadItem.html. simpl.
    by rewrite append_assoc. }
  split; [by rewrite Heq | exact Heq].
Qed.

(** The fence rule of [html], read off the parity of the count. *)
Lemma html_text_not_tool (sender text : string) (tn : option string) :
  sender ≠ "tool" →
  ThreadItem.html_text sender text tn =
    if Nat.odd (count text line_fence)
    then text +:+ closing_fence
    else text.
Proof.
  intros Hs. unfold ThreadItem.html_text.
  rewrite (string_eqb_false _ _ Hs).
  fold line_fence. generalize (count text line_fence). intros n.
  destruct (Nat.odd n) eqn:Ho.
  - assert (n mod 2 = 1) as ->.
    { apply Nat.odd_spec in Ho. destruct Ho as [k ->].
      rewrite Nat.add_comm, Nat.mul_comm. by rewrite Nat.Div0.mod_add. }
    reflexivity.
  - assert (n mod 2 = 0) as ->.
    { rewrite <- Nat.negb_even in Ho. apply negb_false_iff in Ho.
      apply Nat.even_spec in Ho. destruct Ho as [k ->].
      rewrite Nat.mul_comm. by apply Nat.Div0.mod_mul. }
    simpl. apply append_nil_r.
Qed.

(** C2. The code at an input where it misses what the rule is for.  A
    text that opens a code block at its first character holds exactly
    one triple-backtick fence marker, and [html] hands it to the
    converter with no closing fence: it counts the occurrences of a line
    break followed by three backticks, and the marker at the first
    character follows no line break.  For the same reason the finished
    block, with two markers, is handed over with a stray fence
    appended. *)
Lemma fence_at_start_of_text_is_not_counted :
  let opened := "```python" +:+ NL +:+ "print(1)" in
  let closed := opened +:+ NL +:+ "```" in
  let item text :=
    ThreadItem.mk "agent" text None
      (widgets.mkHTML (ThreadItem.html_of "agent" text None)
         "\(\color{blue}{agent:}\)") in
  (count opened "```" = 1 ∧
   markdown2.source (ThreadItem.html (item opened)) = opened ∧
   opened ≠ opened +:+ closing_fence) ∧
  (count closed "```" = 2 ∧
   markdown2.source (ThreadItem.html (item closed)) =
     closed +:+ closing_fence ∧
   closed +:+ closing_fence ≠ closed).
Proof. repeat split; discriminate. Qed.

(** ** The reducer, row by row *)

Lemma lookup_snoc_last {A} (l : list A) (x : A) :
  (l ++ [x]) !! length l = Some x.
Proof. by apply list_lookup_middle. Qed.

Lemma insert_snoc_last {A} (l : list A) (x y : A) :
  <[length l := y]> (l ++ [x]) = l ++ [y].
Proof.
  rewrite <- (Nat.add_0_r (length l)) at 1. by rewrite insert_app_r.
Qed.

Lemma has_type_true (c : Part) (ty : string) :
  has_type c ty = true ↔ c !! "type" = Some ty.
Proof.
  unfold has_type, contains. destruct (c !! "type") as [v|]; simpl.
  - rewrite String.eqb_eq. split; congruence.
  - split; discriminate.
Qed.

Lemma has_type_other (c : Part) (ty ty' : string) :
  c !! "type" = Some ty → ty ≠ ty' → has_type c ty' = false.
Proof.
  intros Hc Hne. unfold has_type, contains. rewrite Hc. simpl.
  by apply String.eqb_neq.
Qed.

Lemma init_blank_agent :
  ThreadItem.__init__ EmptyString "agent" None = Ok blank_agent.
Proof. reflexivity. Qed.

Lemma init_hello_item :
  ThreadItem.__init__ "hello" "user" None = Ok hello_item.
Proof. reflexivity. Qed.

Lemma init_blank_tool (tn : option string) :
  ThreadItem.__init__ EmptyString "tool" tn = Ok (blank_tool tn).
Proof. reflexivity. Qed.

Section Rows.

Import ChatDisplay.

Implicit Types s : session.

Lemma ensure_current_None s role tn fresh :
  current_message s = None →
  ThreadItem.__init__ EmptyString role tn = Ok fresh →
  ensure_current role tn s = (pushed s fresh, Ok tt).
Proof.
  intros Hc Hi.
  unfold ensure_current, bind, is_none_or_not, on_self, _push_new_message,
    set_current, modify.
  rewrite Hc, Hi. reflexivity.
Qed.

Lemma ensure_current_other s role tn fresh i item :
  current_message s = Some i →
  items_of s !! i = Some item →
  ThreadItem._sender item ≠ role →
  ThreadItem.__init__ EmptyString role tn = Ok fresh →
  ensure_current role tn s = (pushed s fresh, Ok tt).
Proof.
  intros Hc Hl Hs Hi. unfold items_of in Hl.
  unfold ensure_current, bind, is_none_or_not, on_self, _push_new_message,
    set_current, modify.
  rewrite Hc, Hl. unfold ThreadItem.sender.
  rewrite (string_eqb_false _ _ Hs). simpl. rewrite Hi. reflexivity.
Qed.

Lemma ensure_current_same s role tn i item :
  current_message s = Some i →
  items_of s !! i = Some item →
  ThreadItem._sender item = role →
  ensure_current role tn s = (s, Ok tt).
Proof.
  intros Hc Hl Hs. unfold items_of in Hl.
  unfold ensure_current, bind, is_none_or_not.
  rewrite Hc, Hl. unfold ThreadItem.sender. rewrite Hs, String.eqb_refl.
  reflexivity.
Qed.

Lemma on_current_at s f i item :
  current_message s = Some i →
  items_of s !! i = Some item →
  on_current f s =
    ({| self := with_items (<[i := f item]> (items_of s)) (self s);
        current_message := Some i |}, Ok tt).
Proof.
  intros Hc Hl. unfold items_of in *. unfold on_current.
  by rewrite Hc, Hl.
Qed.

Lemma on_current_pushed s f item :
  on_current f (pushed s item) = (pushed s (f item), Ok tt).
Proof.
  rewrite (on_current_at (pushed s item) f (length (items_of s)) item);
    [| reflexivity | apply lookup_snoc_last].
  unfold pushed, items_of, with_items. simpl.
  by rewrite insert_snoc_last.
Qed.

Lemma ensure_current_pushed_same s role tn item :
  ThreadItem._sender item = role →
  ensure_current role tn (pushed s item) = (pushed s item, Ok tt).
Proof.
  intros Hs.
  apply (ensure_current_same (pushed s item) role tn (length (items_of s)) item);
    [reflexivity | apply lookup_snoc_last | exact Hs].
Qed.

End Rows.

Section Events.

Import ChatDisplay.
Implicit Types s : session.

Lemma ensure_current_pushed_other s role tn fresh item :
  ThreadItem._sender item ≠ role →
  ThreadItem.__init__ EmptyString role tn = Ok fresh →
  ensure_current role tn (pushed s item)
    = (pushed (pushed s item) fresh, Ok tt).
Proof.
  intros Hs Hi.
  apply (ensure_current_other (pushed s item) role tn fresh
           (length (items_of s)) item);
    [reflexivity | apply lookup_snoc_last | exact Hs | exact Hi].
Qed.

(** A text part of a token event. *)
Lemma stream_part_text s c text :
  c !! "type" = Some "text" →
  c !! "text" = Some text →
  stream_part c s =
    bind (ensure_current "agent" None)
      (fun _ => on_current (ThreadItem.append_text text None)) s.
Proof.
  intros Ht Hx. unfold stream_part.
  rewrite (proj2 (has_type_true c "text") Ht).
  unfold bind, getitem. rewrite Hx.
  by destruct (ensure_current "agent" None s) as [s1 [[]|e]].
Qed.

(** A text part that lacks the [text] key. *)
Lemma stream_part_text_missing s c :
  c !! "type" = Some "text" →
  c !! "text" = None →
  stream_part c s =
    bind (ensure_current "agent" None)
      (fun _ => raise (KeyError "text")) s.
Proof.
  intros Ht Hx. unfold stream_part.
  rewrite (proj2 (has_type_true c "text") Ht).
  unfold bind, getitem. rewrite Hx.
  by destruct (ensure_current "agent" None s) as [s1 [[]|e]].
Qed.

(** A tool-call part of a token event. *)
Lemma stream_part_tool s c :
  c !! "type" = Some "tool_use" →
  stream_part c s =
    bind (ensure_current "tool" (c !! "name"))
      (fun _ =>
         match c !! "input" with
         | Some input =>
             on_current (ThreadItem.append_text input (c !! "name"))
         | None => ret tt
         end) s.
Proof.
  intros Ht. unfold stream_part.
  rewrite (has_type_other c "tool_use" "text" Ht) by discriminate.
  rewrite (proj2 (has_type_true c "tool_use") Ht).
  unfold bind, getitem, contains.
  destruct (ensure_current "tool" (c !! "name") s) as [s1 [[]|e]];
    [| reflexivity].
  by destruct (c !! "input").
Qed.

(** A part that is neither a text nor a tool call. *)
Lemma stream_part_other s c :
  c !! "type" ≠ Some "text" →
  c !! "type" ≠ Some "tool_use" →
  stream_part c s = (s, Ok tt).
Proof.
  intros H1 H2. unfold stream_part.
  destruct (has_type c "text") eqn:E1;
    [by apply has_type_true in E1 |].
  destruct (has_type c "tool_use") eqn:E2;
    [by apply has_type_true in E2 |].
  reflexivity.
Qed.

(** The final output is a text. *)
Lemma final_part_text s c text :
  c !! "type" = Some "text" →
  c !! "text" = Some text →
  final_part c s =
    bind (ensure_current "agent" None)
      (fun _ => on_current (ThreadItem.update text None)) s.
Proof.
  intros Ht Hx. unfold final_part.
  rewrite (proj2 (has_type_true c "text") Ht).
  unfold bind at 1. unfold getitem. by rewrite Hx.
Qed.

Lemma final_part_text_missing s c :
  c !! "type" = Some "text" →
  c !! "text" = None →
  final_part c s = (s, Raise (KeyError "text")).
Proof.
  intros Ht Hx. unfold final_part.
  rewrite (proj2 (has_type_true c "text") Ht).
  unfold bind at 1. unfold getitem. by rewrite Hx.
Qed.

(** The final output is a tool call. *)
Lemma final_part_tool s c :
  c !! "type" = Some "tool_use" →
  final_part c s =
    match c !! "input" with
    | Some input =>
        bind (ensure_current "tool" (c !! "name"))
          (fun _ =>
             on_current (ThreadItem.update input (c !! "name"))) s
    | None => (s, Ok tt)
    end.
Proof.
  intros Ht. unfold final_part.
  rewrite (has_type_other c "tool_use" "text" Ht) by discriminate.
  rewrite (proj2 (has_type_true c "tool_use") Ht).
  unfold contains, getitem. by destruct (c !! "input").
Qed.

Lemma final_part_other s c :
  c !! "type" ≠ Some "text" →
  c !! "type" ≠ Some "tool_use" →
  final_part c s = (s, Ok tt).
Proof.
  intros H1 H2. unfold final_part.
  destruct (has_type c "text") eqn:E1;
    [by apply has_type_true in E1 |].
  destruct (has_type c "tool_use") eqn:E2;
    [by apply has_type_true in E2 |].
  reflexivity.
Qed.

(** The three event kinds, and the others. *)
Lemma handle_event_start s ev :
  event ev = "on_chat_model_start" →
  handle_event ev s =
    ({| self := set_status "on_chat_model_start" (self s);
        current_message := None |}, Ok tt).
Proof. intros He. unfold handle_event. by rewrite He. Qed.

Lemma handle_event_stream s ev content :
  event ev = "on_chat_model_stream" →
  data ev !! "chunk" = Some content →
  handle_event ev s =
    for_each content stream_part (with_status "on_chat_model_stream" s).
Proof.
  intros He Hd. unfold handle_event. rewrite He.
  unfold bind at 1. simpl. unfold bind at 1. unfold getitem.
  by rewrite Hd.
Qed.

Lemma handle_event_end s ev content :
  event ev = "on_chat_model_end" →
  data ev !! "output" = Some content →
  handle_event ev s =
    match last content with
    | Some c => final_part c (with_status "on_chat_model_end" s)
    | None =>
        (with_status "on_chat_model_end" s,
         Raise (IndexError "list index out of range"))
    end.
Proof.
  intros He Hd. unfold handle_event. rewrite He.
  unfold bind at 1. simpl. unfold bind at 1. unfold getitem.
  rewrite Hd. unfold ret, bind, last_item.
  by destruct (last content).
Qed.

Lemma handle_event_other s ev :
  event ev ≠ "on_chat_model_start" →
  event ev ≠ "on_chat_model_stream" →
  event ev ≠ "on_chat_model_end" →
  handle_event ev s = (with_status (event ev) s, Ok tt).
Proof.
  intros H1 H2 H3. unfold handle_event.
  rewrite (string_eqb_false _ _ H1), (string_eqb_false _ _ H2),
    (string_eqb_false _ _ H3).
  reflexivity.
Qed.

Lemma run_events_cons s ev evs :
  run_events (ev :: evs) s =
    match handle_event ev s with
    | (s', Ok _) => run_events evs s'
    | (s', Raise e) => (s', Raise e)
    end.
Proof. reflexivity. Qed.

Lemma with_status_pushed s value item :
  with_status value (pushed s item) = pushed (with_status value s) item.
Proof. reflexivity. Qed.

End Events.

(** ** The claims about the reducer *)

Section Reducer.

Import ChatDisplay.
Implicit Types s : session.

Lemma for_each_one {S A} (a : A) (body : A → M S unit) (st : S) :
  for_each [a] body st = body a st.
Proof.
  simpl. unfold bind, ret. by destruct (body a st) as [st' [[]|e]].
Qed.

Lemma for_each_cons {S A} (a : A) (l : list A) (body : A → M S unit)
  (st : S) :
  for_each (a :: l) body st =
    match body a st with
    | (st', Ok _) => for_each l body st'
    | (st', Raise e) => (st', Raise e)
    end.
Proof. reflexivity. Qed.

(** A text token that finds no current message opens an agent item
    holding the token's text. *)
Lemma stream_text_opens s c text :
  c !! "type" = Some "text" →
  c !! "text" = Some text →
  current_message s = None →
  stream_part c s =
    (pushed s (ThreadItem.append_text text None blank_agent), Ok tt).
Proof.
  intros Ht Hx Hc. rewrite (stream_part_text s c text Ht Hx).
  unfold bind.
  rewrite (ensure_current_None s "agent" None blank_agent Hc
             init_blank_agent).
  apply on_current_pushed.
Qed.

(** A final text that finds an agent item as the current message
    replaces the text of that item. *)
Lemma final_text_replaces s c text i item :
  c !! "type" = Some "text" →
  c !! "text" = Some text →
  current_message s = Some i →
  items_of s !! i = Some item →
  ThreadItem._sender item = "agent" →
  final_part c s =
    ({| self :=
          with_items (<[i := ThreadItem.update text None item]> (items_of s))
            (self s);
        current_message := Some i |}, Ok tt).
Proof.
  intros Ht Hx Hc Hl Hs. rewrite (final_part_text s c text Ht Hx).
  unfold bind.
  rewrite (ensure_current_same s "agent" None i item Hc Hl Hs).
  by apply on_current_at.
Qed.

End Reducer.

(** C1. For the events [turn-start, token(text part), turn-end(final
    text)], run from the start of [process_message] on any display, the
    thread gains exactly one item; its sender is [agent] and its text is
    the final text, whatever the token had accumulated.  In general the
    turn-end branch, finding an agent item as the current message, stores
    [update final] of that item, whose text is the final text. *)
Theorem turn_end_overwrites_partial_text
  (d : ChatDisplay.t) (stream : Stream) (e1 e2 e3 : Event) (p1 p2 : Part)
  (partial final : string) :
  events stream = [e1; e2; e3] →
  event e1 = "on_chat_model_start" →
  event e2 = "on_chat_model_stream" →
  data e2 !! "chunk" = Some [p1] →
  p1 !! "type" = Some "text" →
  p1 !! "text" = Some partial →
  event e3 = "on_chat_model_end" →
  data e3 !! "output" = Some [p2] →
  p2 !! "type" = Some "text" →
  p2 !! "text" = Some final →
  (∃ d' item,
     ChatDisplay.process_message stream d = (d', Ok tt) ∧
     ChatDisplay.thread_items d' = ChatDisplay.thread_items d ++ [item] ∧
     ThreadItem._sender item = "agent" ∧
     ThreadItem._text item = final ∧
     item = ThreadItem.update final None
              (ThreadItem.append_text partial None blank_agent)) ∧
  (∀ s i item,
     ChatDisplay.current_message s = Some i →
     items_of s !! i = Some item →
     ThreadItem._sender item = "agent" →
     ∃ s', ChatDisplay.final_part p2 s = (s', Ok tt) ∧
       items_of s' = <[i := ThreadItem.update final None item]> (items_of s) ∧
       ThreadItem._text (ThreadItem.update final None item) = final).
Proof.
  intros Hev H1 H2 Hd2 Ht1 Hx1 H3 Hd3 Ht2 Hx2. split.
  - unfold ChatDisplay.process_message. rewrite Hev.
    set (s0 := ChatDisplay.open_stream stream d).
    rewrite run_events_cons, (handle_event_start s0 e1 H1).
    rewrite run_events_cons, (handle_event_stream _ e2 [p1] H2 Hd2).
    rewrite for_each_one, (stream_text_opens _ p1 partial Ht1 Hx1)
      by reflexivity.
    rewrite run_events_cons, (handle_event_end _ e3 [p2] H3 Hd3).
    simpl last. rewrite with_status_pushed.
    rewrite (final_part_text _ p2 final Ht2 Hx2). unfold bind.
    rewrite ensure_current_pushed_same by apply append_text_sender.
    rewrite on_current_pushed. simpl.
    eexists _, _. split; [reflexivity |].
    split; [reflexivity |].
    split; [by rewrite update_sender, append_text_sender |].
    split; [apply update_text | reflexivity].
  - intros s i item Hc Hl Hs.
    rewrite (final_text_replaces s p2 final i item Ht2 Hx2 Hc Hl Hs).
    eexists. split; [reflexivity |]. split; [reflexivity |].
    apply update_text.
Qed.

Lemma turn_end_overwrites_partial_text_witness :
  ∃ d' item,
    ChatDisplay.process_message
      (mkStream "<stream>"
         [turn_start; token [text_part "ab"]; turn_end [text_part "abc"]])
      hello_display = (d', Ok tt) ∧
    ChatDisplay.thread_items d' =
      ChatDisplay.thread_items hello_display ++ [item] ∧
    ThreadItem._sender item = "agent" ∧
    ThreadItem._text item = "abc" ∧
    item = ThreadItem.update "abc" None
             (ThreadItem.append_text "ab" None blank_agent).
Proof.
  apply (proj1 (turn_end_overwrites_partial_text hello_display
    (mkStream "<stream>"
       [turn_start; token [text_part "ab"]; turn_end [text_part "abc"]])
    turn_start (token [text_part "ab"]) (turn_end [text_part "abc"])
    (text_part "ab") (text_part "abc") "ab" "abc"
    eq_refl eq_refl eq_refl eq_refl eq_refl eq_refl eq_refl eq_refl
    eq_refl eq_refl)).
Defined.

Lemma items_of_pushed (s : ChatDisplay.session) (item : ThreadItem.t) :
  items_of (pushed s item) = items_of s ++ [item].
Proof. reflexivity. Qed.

(** C4. For the events [token(text a), turn-start, token(text b)], run
    from the start of [process_message] on any display, the thread gains
    two agent items, the first holding [a] and the second holding [b]:
    the turn-start event leaves the items as they are and sets the
    current message to [None], so the second token opens a new item. *)
Theorem turn_start_separates_items
  (d : ChatDisplay.t) (stream : Stream) (e1 e2 e3 : Event) (pa pb : Part)
  (a b : string) :
  events stream = [e1; e2; e3] →
  event e1 = "on_chat_model_stream" →
  data e1 !! "chunk" = Some [pa] →
  pa !! "type" = Some "text" →
  pa !! "text" = Some a →
  event e2 = "on_chat_model_start" →
  event e3 = "on_chat_model_stream" →
  data e3 !! "chunk" = Some [pb] →
  pb !! "type" = Some "text" →
  pb !! "text" = Some b →
  (∃ d' first second,
     ChatDisplay.process_message stream d = (d', Ok tt) ∧
     ChatDisplay.thread_items d' =
       ChatDisplay.thread_items d ++ [first; second] ∧
     ThreadItem._sender first = "agent" ∧ ThreadItem._text first = a ∧
     ThreadItem._sender second = "agent" ∧ ThreadItem._text second = b) ∧
  (∀ s, ∃ s', ChatDisplay.handle_event e2 s = (s', Ok tt) ∧
     ChatDisplay.current_message s' = None ∧ items_of s' = items_of s).
Proof.
  intros Hev H1 Hd1 Hta Hxa H2 H3 Hd3 Htb Hxb. split.
  - unfold ChatDisplay.process_message. rewrite Hev.
    set (s0 := ChatDisplay.open_stream stream d).
    rewrite run_events_cons, (handle_event_stream s0 e1 [pa] H1 Hd1).
    rewrite for_each_one, (stream_text_opens _ pa a Hta Hxa)
      by reflexivity.
    rewrite run_events_cons, (handle_event_start _ e2 H2).
    rewrite run_events_cons, (handle_event_stream _ e3 [pb] H3 Hd3).
    rewrite for_each_one, (stream_text_opens _ pb b Htb Hxb)
      by reflexivity.
    simpl.
    exists (ChatDisplay.self
              (pushed
                 (with_status "on_chat_model_stream"
                    {| ChatDisplay.self :=
                         ChatDisplay.set_status "on_chat_model_start"
                           (ChatDisplay.self
                              (pushed
                                 (with_status "on_chat_model_stream" s0)
                                 (ThreadItem.append_text a None
                                    blank_agent)));
                       ChatDisplay.current_message := None |})
                 (ThreadItem.append_text b None blank_agent))),
      (ThreadItem.append_text a None blank_agent),
      (ThreadItem.append_text b None blank_agent).
    split; [reflexivity |].
    split.
    { change ((ChatDisplay.thread_items d
                 ++ [ThreadItem.append_text a None blank_agent])
                ++ [ThreadItem.append_text b None blank_agent] =
              ChatDisplay.thread_items d
                ++ [ThreadItem.append_text a None blank_agent;
                    ThreadItem.append_text b None blank_agent]).
      by rewrite <- app_assoc. }
    by repeat split.
  - intros s. rewrite (handle_event_start s e2 H2).
    eexists. by repeat split.
Qed.

Lemma turn_start_separates_items_witness :
  ∃ d' first second,
    ChatDisplay.process_message
      (mkStream "<stream>"
         [token [text_part "a"]; turn_start; token [text_part "b"]])
      hello_display = (d', Ok tt) ∧
    ChatDisplay.thread_items d' =
      ChatDisplay.thread_items hello_display ++ [first; second] ∧
    ThreadItem._sender first = "agent" ∧ ThreadItem._text first = "a" ∧
    ThreadItem._sender second = "agent" ∧ ThreadItem._text second = "b".
Proof.
  apply (proj1 (turn_start_separates_items hello_display
    (mkStream "<stream>"
       [token [text_part "a"]; turn_start; token [text_part "b"]])
    (token [text_part "a"]) turn_start (token [text_part "b"])
    (text_part "a") (text_part "b") "a" "b"
    eq_refl eq_refl eq_refl eq_refl eq_refl eq_refl eq_refl eq_refl
    eq_refl eq_refl)).
Defined.

Lemma ensure_current_opens (s : ChatDisplay.session) (role : string)
  (tn : option string) (fresh : ThreadItem.t) :
  current_differs role s →
  ThreadItem.__init__ EmptyString role tn = Ok fresh →
  ChatDisplay.ensure_current role tn s = (pushed s fresh, Ok tt).
Proof.
  intros [Hc | (i & item & Hc & Hl & Hs)] Hi.
  - by apply ensure_current_None.
  - by apply (ensure_current_other s role tn fresh i item).
Qed.

Lemma current_differs_pushed (s : ChatDisplay.session) (item : ThreadItem.t)
  (role : string) :
  ThreadItem._sender item ≠ role → current_differs role (pushed s item).
Proof.
  intros Hs. right. exists (length (items_of s)), item.
  split; [reflexivity |]. split; [apply lookup_snoc_last | exact Hs].
Qed.

(** A tool-call token that finds no tool item as the current message
    opens a tool item. *)
Lemma stream_tool_opens (s : ChatDisplay.session) (c : Part) :
  c !! "type" = Some "tool_use" →
  current_differs "tool" s →
  ChatDisplay.stream_part c s = (pushed s (tool_item_of c), Ok tt).
Proof.
  intros Ht Hd. rewrite (stream_part_tool s c Ht). unfold bind.
  rewrite (ensure_current_opens s "tool" (c !! "name") _ Hd
             (init_blank_tool _)).
  unfold tool_item_of. destruct (c !! "input") as [input|].
  - apply on_current_pushed.
  - reflexivity.
Qed.

Lemma tool_item_of_fields (c : Part) :
  ThreadItem._sender (tool_item_of c) = "tool" ∧
  ThreadItem._text (tool_item_of c) = default EmptyString (c !! "input") ∧
  ThreadItem._tool_name (tool_item_of c) = c !! "name".
Proof.
  unfold tool_item_of. destruct (c !! "input") as [input|].
  - rewrite append_text_sender, append_text_text.
    split; [reflexivity |]. split; [reflexivity |].
    unfold ThreadItem.append_text, ThreadItem.store_tool_name.
    by destruct (truthy_opt (c !! "name")).
  - by repeat split.
Qed.

(** A part of a token event whose kind differs from the sender of the
    current message adds one item to the thread. *)
Lemma stream_part_opens (s : ChatDisplay.session) (c : Part) :
  (c !! "type" = Some "text" ∧ current_differs "agent" s) ∨
  (c !! "type" = Some "tool_use" ∧ current_differs "tool" s) →
  length (items_of (ChatDisplay.stream_part c s).1) = S (length (items_of s)).
Proof.
  intros [[Ht Hd] | [Ht Hd]].
  - destruct (c !! "text") as [text|] eqn:Hx.
    + rewrite (stream_part_text s c text Ht Hx). unfold bind.
      rewrite (ensure_current_opens s "agent" None _ Hd init_blank_agent).
      rewrite on_current_pushed. simpl.
      rewrite items_of_pushed, length_app. simpl. lia.
    + rewrite (stream_part_text_missing s c Ht Hx). unfold bind.
      rewrite (ensure_current_opens s "agent" None _ Hd init_blank_agent).
      simpl. rewrite items_of_pushed, length_app. simpl. lia.
  - rewrite (stream_tool_opens s c Ht Hd). simpl.
    rewrite items_of_pushed, length_app. simpl. lia.
Qed.

(** C5. A text part followed by a tool-call part, whether the two parts
    arrive in two token events or in one, run from the start of
    [process_message] on any display, add exactly two items to the
    thread: an agent item holding the text and a tool item holding the
    input fragment (empty when the part has none) under the part's name.
    In general a part of a token event whose kind differs from the sender
    of the current message adds one item. *)
Theorem text_then_tool_call_gives_two_items
  (d : ChatDisplay.t) (pt pc : Part) (text : string) :
  pt !! "type" = Some "text" →
  pt !! "text" = Some text →
  pc !! "type" = Some "tool_use" →
  (∀ stream e1 e2,
     events stream = [e1; e2] →
     event e1 = "on_chat_model_stream" → data e1 !! "chunk" = Some [pt] →
     event e2 = "on_chat_model_stream" → data e2 !! "chunk" = Some [pc] →
     ∃ d' agent tool,
       ChatDisplay.process_message stream d = (d', Ok tt) ∧
       ChatDisplay.thread_items d' =
         ChatDisplay.thread_items d ++ [agent; tool] ∧
       ThreadItem._sender agent = "agent" ∧
       ThreadItem._text agent = text ∧
       ThreadItem._sender tool = "tool" ∧
       ThreadItem._text tool = default EmptyString (pc !! "input") ∧
       ThreadItem._tool_name tool = pc !! "name") ∧
  (∀ stream e,
     events stream = [e] →
     event e = "on_chat_model_stream" → data e !! "chunk" = Some [pt; pc] →
     ∃ d' agent tool,
       ChatDisplay.process_message stream d = (d', Ok tt) ∧
       ChatDisplay.thread_items d' =
         ChatDisplay.thread_items d ++ [agent; tool] ∧
       ThreadItem._sender agent = "agent" ∧
       ThreadItem._text agent = text ∧
       ThreadItem._sender tool = "tool" ∧
       ThreadItem._text tool = default EmptyString (pc !! "input") ∧
       ThreadItem._tool_name tool = pc !! "name") ∧
  (∀ s c,
     (c !! "type" = Some "text" ∧ current_differs "agent" s) ∨
     (c !! "type" = Some "tool_use" ∧ current_differs "tool" s) →
     length (items_of (ChatDisplay.stream_part c s).1)
       = S (length (items_of s))).
Proof.
  intros Ht Hx Hc.
  assert (ThreadItem._sender (ThreadItem.append_text text None blank_agent)
            ≠ "tool") as Hagent.
  { rewrite append_text_sender. discriminate. }
  destruct (tool_item_of_fields pc) as (Hs & Htx & Hn).
  split; [| split].
  - intros stream e1 e2 Hev H1 Hd1 H2 Hd2.
    unfold ChatDisplay.process_message. rewrite Hev.
    set (s0 := ChatDisplay.open_stream stream d).
    rewrite run_events_cons, (handle_event_stream s0 e1 [pt] H1 Hd1).
    rewrite for_each_one, (stream_text_opens _ pt text Ht Hx)
      by reflexivity.
    rewrite run_events_cons, (handle_event_stream _ e2 [pc] H2 Hd2).
    rewrite for_each_one, with_status_pushed.
    rewrite (stream_tool_opens _ pc Hc)
      by (by apply current_differs_pushed).
    eexists _, (ThreadItem.append_text text None blank_agent),
      (tool_item_of pc).
    split; [reflexivity |]. split.
    { change ((ChatDisplay.thread_items d
                 ++ [ThreadItem.append_text text None blank_agent])
                ++ [tool_item_of pc] =
              ChatDisplay.thread_items d
                ++ [ThreadItem.append_text text None blank_agent;
                    tool_item_of pc]).
      by rewrite <- app_assoc. }
    by repeat split.
  - intros stream e Hev H1 Hd1.
    unfold ChatDisplay.process_message. rewrite Hev.
    set (s0 := ChatDisplay.open_stream stream d).
    rewrite run_events_cons, (handle_event_stream s0 e [pt; pc] H1 Hd1).
    rewrite for_each_cons, (stream_text_opens _ pt text Ht Hx)
      by reflexivity.
    rewrite for_each_one.
    rewrite (stream_tool_opens _ pc Hc)
      by (by apply current_differs_pushed).
    eexists _, (ThreadItem.append_text text None blank_agent),
      (tool_item_of pc).
    split; [reflexivity |]. split.
    { change ((ChatDisplay.thread_items d
                 ++ [ThreadItem.append_text text None blank_agent])
                ++ [tool_item_of pc] =
              ChatDisplay.thread_items d
                ++ [ThreadItem.append_text text None blank_agent;
                    tool_item_of pc]).
      by rewrite <- app_assoc. }
    by repeat split.
  - apply stream_part_opens.
Qed.

Lemma text_then_tool_call_gives_two_items_witness :
  ∃ d' agent tool,
    ChatDisplay.process_message
      (mkStream "<stream>"
         [token [text_part "Let me compute."]; token [tool_part "calc" "{"]])
      hello_display = (d', Ok tt) ∧
    ChatDisplay.thread_items d' =
      ChatDisplay.thread_items hello_display ++ [agent; tool] ∧
    ThreadItem._sender agent = "agent" ∧
    ThreadItem._text agent = "Let me compute." ∧
    ThreadItem._sender tool = "tool" ∧
    ThreadItem._text tool =
      default EmptyString (tool_part "calc" "{" !! "input") ∧
    ThreadItem._tool_name tool = tool_part "calc" "{" !! "name".
Proof.
  apply (proj1 (text_then_tool_call_gives_two_items hello_display
    (text_part "Let me compute.") (tool_part "calc" "{") "Let me compute."
    eq_refl eq_refl eq_refl)
    (mkStream "<stream>"
       [token [text_part "Let me compute."]; token [tool_part "calc" "{"]])
    (token [text_part "Let me compute."]) (token [tool_part "calc" "{"])
    eq_refl eq_refl eq_refl eq_refl eq_refl).
Defined.

Lemma for_each_app {S A} (l1 l2 : list A) (body : A → M S unit) (st : S) :
  ChatDisplay.for_each (l1 ++ l2) body st =
    match ChatDisplay.for_each l1 body st with
    | (st', Ok _) => ChatDisplay.for_each l2 body st'
    | (st', Raise e) => (st', Raise e)
    end.
Proof.
  revert st. induction l1 as [|a l1 IH]; intros st; [reflexivity |].
  simpl. unfold bind.
  destruct (body a st) as [st1 [[]|e]]; [apply IH | reflexivity].
Qed.

(** C6. A turn-end event whose final output is the list [earlier ++
    [last_part]] is handled exactly as the status update followed by the
    final-output branch on [last_part], and so exactly as the event whose
    output is [[last_part]] alone: no part of [earlier] is read, and none
    changes the thread. *)
Theorem turn_end_reads_last_part_only
  (s : ChatDisplay.session) (ev : Event) (earlier : list Part)
  (last_part : Part) :
  event ev = "on_chat_model_end" →
  data ev !! "output" = Some (earlier ++ [last_part]) →
  ChatDisplay.handle_event ev s =
    ChatDisplay.final_part last_part (with_status "on_chat_model_end" s) ∧
  ChatDisplay.handle_event ev s =
    ChatDisplay.handle_event (turn_end [last_part]) s.
Proof.
  intros He Hd.
  rewrite (handle_event_end s ev (earlier ++ [last_part]) He Hd).
  rewrite (handle_event_end s (turn_end [last_part]) [last_part]
             eq_refl eq_refl).
  by rewrite last_snoc.
Qed.

Lemma turn_end_reads_last_part_only_witness :
  let s := ChatDisplay.open_stream (mkStream "<stream>" []) hello_display in
  let ev := turn_end [text_part "draft"; tool_part "calc" "{}";
                      text_part "done"] in
  ChatDisplay.handle_event ev s =
    ChatDisplay.final_part (text_part "done")
      (with_status "on_chat_model_end" s) ∧
  ChatDisplay.handle_event ev s =
    ChatDisplay.handle_event (turn_end [text_part "done"]) s.
Proof.
  intros s ev.
  exact (turn_end_reads_last_part_only s ev
           [text_part "draft"; tool_part "calc" "{}"] (text_part "done")
           eq_refl eq_refl).
Defined.

(** C10. A turn-end event whose final output is the empty list raises
    [IndexError] at [content[-1]]: the status has been written, the items
    of the thread and the current message are as before the event, and
    the loop of [process_message] ends there, so that no later event of
    the stream is handled.  With a non-empty output the indexing itself
    does not raise: the branch on the last part is entered. *)
Theorem turn_end_with_empty_output_raises
  (d : ChatDisplay.t) (stream : Stream) (before after : list Event)
  (ev : Event) (s : ChatDisplay.session) :
  event ev = "on_chat_model_end" →
  data ev !! "output" = Some [] →
  events stream = before ++ ev :: after →
  ChatDisplay.run_events before (ChatDisplay.open_stream stream d)
    = (s, Ok tt) →
  ChatDisplay.handle_event ev s =
    (with_status "on_chat_model_end" s,
     Raise (IndexError "list index out of range")) ∧
  items_of (with_status "on_chat_model_end" s) = items_of s ∧
  ChatDisplay.current_message (with_status "on_chat_model_end" s) =
    ChatDisplay.current_message s ∧
  ChatDisplay.process_message stream d =
    (ChatDisplay.set_status "on_chat_model_end" (ChatDisplay.self s),
     Raise (IndexError "list index out of range")) ∧
  (∀ ev' content c,
     event ev' = "on_chat_model_end" →
     data ev' !! "output" = Some (content ++ [c]) →
     ChatDisplay.handle_event ev' s =
       ChatDisplay.final_part c (with_status "on_chat_model_end" s)).
Proof.
  intros He Hd Hev Hrun.
  assert (ChatDisplay.handle_event ev s =
    (with_status "on_chat_model_end" s,
     Raise (IndexError "list index out of range"))) as Hh.
  { by rewrite (handle_event_end s ev [] He Hd). }
  split; [exact Hh |]. split; [reflexivity |]. split; [reflexivity |].
  split.
  - unfold ChatDisplay.process_message, ChatDisplay.run_events.
    rewrite Hev, for_each_app.
    unfold ChatDisplay.run_events in Hrun. rewrite Hrun.
    rewrite for_each_cons, Hh. reflexivity.
  - intros ev' content c He' Hd'.
    rewrite (handle_event_end s ev' (content ++ [c]) He' Hd').
    by rewrite last_snoc.
Qed.

Lemma turn_end_with_empty_output_raises_witness :
  let stream :=
    mkStream "<stream>"
      [turn_start; token [text_part "Hi"]; turn_end [];
       token [text_part " there"]] in
  ∃ s,
    ChatDisplay.run_events [turn_start; token [text_part "Hi"]]
      (ChatDisplay.open_stream stream hello_display) = (s, Ok tt) ∧
    items_of s =
      [hello_item; ThreadItem.append_text "Hi" None blank_agent] ∧
    ChatDisplay.process_message stream hello_display =
      (ChatDisplay.set_status "on_chat_model_end" (ChatDisplay.self s),
       Raise (IndexError "list index out of range")).
Proof.
  intros stream.
  eexists. split; [reflexivity |]. split; [reflexivity |].
  refine (proj1 (proj2 (proj2 (proj2
    (turn_end_with_empty_output_raises hello_display stream
       [turn_start; token [text_part "Hi"]] [token [text_part " there"]]
       (turn_end []) _ eq_refl eq_refl eq_refl eq_refl))))).
Defined.

(** ** The thread under the reducer *)

Lemma extends_thread_refl (l : list ThreadItem.t) : extends_thread l l.
Proof. by split. Qed.

Lemma extends_thread_trans (a b c : list ThreadItem.t) :
  extends_thread a b → extends_thread b c → extends_thread a c.
Proof.
  intros [Hab Hab'] [Hbc Hbc']. split; [lia |].
  intros i Hi. rewrite Hbc' by lia. by apply Hab'.
Qed.

Lemma extends_thread_app (l added : list ThreadItem.t) :
  extends_thread l (l ++ added).
Proof.
  split; [rewrite length_app; lia |].
  intros i Hi. apply lookup_app_l. lia.
Qed.

Lemma extends_thread_insert_last (l : list ThreadItem.t) (i : nat)
  (y : ThreadItem.t) :
  S i = length l → extends_thread l (<[i := y]> l).
Proof.
  intros Hi. split; [by rewrite length_insert |].
  intros j Hj. apply list_lookup_insert_ne. lia.
Qed.

Section Sound.

Import ChatDisplay.

Lemma sound_ret {A} (a : A) : sound (ret a).
Proof. intros s Hs. split; [exact Hs | apply extends_thread_refl]. Qed.

Lemma sound_raise {A} (e : exn) : sound (@raise session A e).
Proof. intros s Hs. split; [exact Hs | apply extends_thread_refl]. Qed.

Lemma sound_bind {A B} (m : M session A) (k : A → M session B) :
  sound m → (∀ a, sound (k a)) → sound (bind m k).
Proof.
  intros Hm Hk s Hs. unfold bind.
  destruct (Hm s Hs) as [H1 H2].
  destruct (m s) as [s1 [a|e]]; simpl in *.
  - destruct (Hk a s1 H1) as [H3 H4].
    split; [exact H3 | by eapply extends_thread_trans].
  - by split.
Qed.

Lemma sound_getitem {V} (dict : gmap string V) (key : string) :
  sound (getitem dict key).
Proof.
  unfold getitem. destruct (dict !! key); [apply sound_ret | apply sound_raise].
Qed.

Lemma sound_last_item {A} (l : list A) : sound (last_item l).
Proof.
  unfold last_item. destruct (last l); [apply sound_ret | apply sound_raise].
Qed.

Lemma sound_status (value : string) :
  sound (on_self (modify (set_status value))).
Proof. intros s Hs. split; [exact Hs | apply extends_thread_refl]. Qed.

Lemma sound_reset : sound (set_current None).
Proof. intros s Hs. split; [exact I | apply extends_thread_refl]. Qed.

Lemma sound_on_current (f : ThreadItem.t → ThreadItem.t) :
  sound (on_current f).
Proof.
  intros s Hs. unfold on_current.
  assert (current_is_last s ∧ extends_thread (items_of s) (items_of s))
    as Hsame by (split; [exact Hs | apply extends_thread_refl]).
  unfold current_is_last in Hs.
  destruct (current_message s) as [i|] eqn:Hc; [| exact Hsame].
  destruct (thread_items (self s) !! i) as [item|] eqn:Hl;
    [| exact Hsame].
  split.
  - unfold current_is_last. simpl. by rewrite length_insert.
  - by apply extends_thread_insert_last.
Qed.

Lemma sound_ensure_current (role : string) (tn : option string) :
  sound (ensure_current role tn).
Proof.
  intros s Hs.
  unfold ensure_current, bind, is_none_or_not, on_self, _push_new_message,
    set_current, modify.
  assert (∀ fresh,
    current_is_last (pushed s fresh) ∧
    extends_thread (items_of s) (items_of (pushed s fresh))) as Hpush.
  { intros fresh. split.
    - unfold current_is_last. simpl. rewrite length_app. simpl.
      unfold items_of. lia.
    - apply extends_thread_app. }
  assert (current_is_last s ∧ extends_thread (items_of s) (items_of s))
    as Hsame by (split; [exact Hs | apply extends_thread_refl]).
  destruct (current_message s) as [i|] eqn:Hc.
  - destruct (thread_items (self s) !! i) as [item|] eqn:Hl;
      [| exact Hsame].
    destruct (negb (String.eqb (ThreadItem.sender item) role));
      [| exact Hsame].
    destruct (ThreadItem.__init__ EmptyString role tn) as [fresh|e];
      [apply Hpush | exact Hsame].
  - destruct (ThreadItem.__init__ EmptyString role tn) as [fresh|e];
      [apply Hpush | exact Hsame].
Qed.

Lemma sound_for_each {A} (l : list A) (body : A → M session unit) :
  (∀ a, sound (body a)) → sound (for_each l body).
Proof.
  intros Hb. induction l as [|a l IH]; [apply sound_ret |].
  simpl. apply sound_bind; [apply Hb | intros _; exact IH].
Qed.

End Sound.

Section Safe.

Import ChatDisplay.

Lemma sound_stream_part (c : Part) : sound (stream_part c).
Proof.
  unfold stream_part.
  destruct (has_type c "text").
  { apply sound_bind; [apply sound_ensure_current | intros _].
    apply sound_bind; [apply sound_getitem | intros text].
    apply sound_on_current. }
  destruct (has_type c "tool_use"); [| apply sound_ret].
  apply sound_bind; [apply sound_ensure_current | intros _].
  destruct (contains c "input"); [| apply sound_ret].
  apply sound_bind; [apply sound_getitem | intros input].
  apply sound_on_current.
Qed.

Lemma sound_final_part (c : Part) : sound (final_part c).
Proof.
  unfold final_part.
  destruct (has_type c "text").
  { apply sound_bind; [apply sound_getitem | intros text].
    apply sound_bind; [apply sound_ensure_current | intros _].
    apply sound_on_current. }
  destruct (has_type c "tool_use"); [| apply sound_ret].
  destruct (contains c "input"); [| apply sound_ret].
  apply sound_bind; [apply sound_getitem | intros input].
  apply sound_bind; [apply sound_ensure_current | intros _].
  apply sound_on_current.
Qed.

Lemma sound_handle_event (ev : Event) : sound (handle_event ev).
Proof.
  unfold handle_event.
  apply sound_bind; [apply sound_status | intros _].
  destruct (String.eqb (event ev) "on_chat_model_start");
    [apply sound_reset |].
  destruct (String.eqb (event ev) "on_chat_model_stream").
  { apply sound_bind; [apply sound_getitem | intros content].
    apply sound_for_each. apply sound_stream_part. }
  destruct (String.eqb (event ev) "on_chat_model_end"); [| apply sound_ret].
  apply sound_bind; [apply sound_getitem | intros content].
  apply sound_bind; [apply sound_last_item | intros c].
  apply sound_final_part.
Qed.

Lemma sound_run_events (evs : list Event) : sound (run_events evs).
Proof. apply sound_for_each. apply sound_handle_event. Qed.

Lemma open_stream_current_is_last (stream : Stream) (d : t) :
  current_is_last (open_stream stream d).
Proof. exact I. Qed.

(** [ensure_current] leaves a current message that denotes an item, or
    raises the [ValueError] of the constructor. *)
Lemma ensure_current_has_current (role : string) (tn : option string)
  (s : session) :
  current_is_last s →
  (∃ s', ensure_current role tn s = (s', Ok tt) ∧ has_current s') ∨
  (∃ s' msg, ensure_current role tn s = (s', Raise (ValueError msg))).
Proof.
  intros Hs. unfold current_is_last in Hs.
  destruct (contains _LABEL_COLOURS role) eqn:Hv.
  - apply contains_label_colours in Hv.
    destruct (init_valid EmptyString role tn Hv) as (dsc & _ & Hi).
    destruct (current_message s) as [i|] eqn:Hc.
    + destruct (lookup_lt_is_Some_2 (items_of s) i) as [item Hl].
      { unfold items_of. lia. }
      destruct (decide (ThreadItem._sender item = role)) as [He | Hne].
      * left. exists s. split.
        -- by apply (ensure_current_same s role tn i item).
        -- by exists i, item.
      * left. eexists. split.
        -- by eapply (ensure_current_other s role tn _ i item).
        -- eexists _, _. split; [reflexivity | apply lookup_snoc_last].
    + left. eexists. split.
      * by eapply ensure_current_None.
      * eexists _, _. split; [reflexivity | apply lookup_snoc_last].
  - assert (ThreadItem.__init__ EmptyString role tn
            = Raise (ThreadItem.unknown_sender role)) as Hi.
    { unfold ThreadItem.__init__. by rewrite Hv. }
    unfold ensure_current, bind, is_none_or_not, on_self,
      _push_new_message.
    destruct (current_message s) as [i|] eqn:Hc.
    + destruct (lookup_lt_is_Some_2 (items_of s) i) as [item Hl].
      { unfold items_of. lia. }
      unfold items_of in Hl. rewrite Hl.
      destruct (negb (String.eqb (ThreadItem.sender item) role)).
      * right. rewrite Hi. by eexists _, _.
      * left. exists s. split; [reflexivity |]. by exists i, item.
    + right. rewrite Hi. by eexists _, _.
Qed.

Lemma on_current_has_current (f : ThreadItem.t → ThreadItem.t)
  (s : session) :
  has_current s → ∃ s', on_current f s = (s', Ok tt).
Proof.
  intros (i & item & Hc & Hl).
  rewrite (on_current_at s f i item Hc Hl). by eexists.
Qed.

Lemma safe_ensure_then_on_current (role : string) (tn : option string)
  (f : ThreadItem.t → ThreadItem.t) :
  safe (bind (ensure_current role tn) (fun _ => on_current f)).
Proof.
  intros s Hs. unfold bind.
  destruct (ensure_current_has_current role tn s Hs)
    as [(s' & -> & Hh) | (s' & msg & ->)]; [| discriminate].
  destruct (on_current_has_current f s' Hh) as [s'' ->]. discriminate.
Qed.

End Safe.

Section SafeEvents.

Import ChatDisplay.

Lemma safe_ensure_then {A} (role : string) (tn : option string)
  (k : M session A) :
  (∀ s, (k s).2 ≠ Raise InvalidReference) →
  safe (bind (ensure_current role tn) (fun _ => k)).
Proof.
  intros Hk s Hs. unfold bind.
  destruct (ensure_current_has_current role tn s Hs)
    as [(s' & -> & Hh) | (s' & msg & ->)]; [apply Hk | discriminate].
Qed.

Lemma safe_bind {A B} (m : M session A) (k : A → M session B) :
  sound m → safe m → (∀ a, safe (k a)) → safe (bind m k).
Proof.
  intros Hm Hsafe Hk s Hs. unfold bind.
  specialize (Hm s Hs). specialize (Hsafe s Hs).
  destruct (m s) as [s1 [a|e]]; simpl in *.
  - apply Hk. apply Hm.
  - intros [= ->]. by apply Hsafe.
Qed.

Lemma safe_ret {A} (a : A) : safe (@ret session A a).
Proof. intros s _. discriminate. Qed.

Lemma safe_getitem {V} (dict : gmap string V) (key : string) :
  safe (@getitem session V dict key).
Proof.
  intros s _. unfold getitem. destruct (dict !! key); discriminate.
Qed.

Lemma safe_last_item {A} (l : list A) : safe (@last_item session A l).
Proof.
  intros s _. unfold last_item. destruct (last l); discriminate.
Qed.

Lemma safe_for_each {A} (l : list A) (body : A → M session unit) :
  (∀ a, sound (body a)) → (∀ a, safe (body a)) →
  safe (for_each l body).
Proof.
  intros Hsound Hsafe. induction l as [|a l IH]; [apply safe_ret |].
  simpl. apply safe_bind; [apply Hsound | apply Hsafe | intros _; exact IH].
Qed.

Lemma safe_stream_part (c : Part) : safe (stream_part c).
Proof.
  intros s Hs.
  destruct (decide (c !! "type" = Some "text")) as [Ht | Hnt].
  { destruct (c !! "text") as [text|] eqn:Hx.
    - rewrite (stream_part_text s c text Ht Hx).
      by apply safe_ensure_then_on_current.
    - rewrite (stream_part_text_missing s c Ht Hx).
      apply safe_ensure_then; [| exact Hs]. intros s'. discriminate. }
  destruct (decide (c !! "type" = Some "tool_use")) as [Hu | Hnu].
  { rewrite (stream_part_tool s c Hu).
    destruct (c !! "input") as [input|].
    - by apply safe_ensure_then_on_current.
    - apply safe_ensure_then; [| exact Hs]. intros s'. discriminate. }
  rewrite (stream_part_other s c Hnt Hnu). discriminate.
Qed.

Lemma safe_final_part (c : Part) : safe (final_part c).
Proof.
  intros s Hs.
  destruct (decide (c !! "type" = Some "text")) as [Ht | Hnt].
  { destruct (c !! "text") as [text|] eqn:Hx.
    - rewrite (final_part_text s c text Ht Hx).
      by apply safe_ensure_then_on_current.
    - rewrite (final_part_text_missing s c Ht Hx). discriminate. }
  destruct (decide (c !! "type" = Some "tool_use")) as [Hu | Hnu].
  { rewrite (final_part_tool s c Hu).
    destruct (c !! "input") as [input|]; [| discriminate].
    by apply safe_ensure_then_on_current. }
  rewrite (final_part_other s c Hnt Hnu). discriminate.
Qed.

Lemma safe_handle_event (ev : Event) : safe (handle_event ev).
Proof.
  unfold handle_event.
  apply safe_bind; [apply sound_status | by intros s _ | intros _].
  destruct (String.eqb (event ev) "on_chat_model_start");
    [by intros s _ |].
  destruct (String.eqb (event ev) "on_chat_model_stream").
  { apply safe_bind; [apply sound_getitem | apply safe_getitem |].
    intros content.
    apply safe_for_each; [apply sound_stream_part | apply safe_stream_part]. }
  destruct (String.eqb (event ev) "on_chat_model_end"); [| apply safe_ret].
  apply safe_bind; [apply sound_getitem | apply safe_getitem |].
  intros content.
  apply safe_bind; [apply sound_last_item | apply safe_last_item |].
  intros c. apply safe_final_part.
Qed.

(** Every run of the loop from a state in which the current message,
    if any, is the last item (the start of [process_message] is one)
    ends in such a state, with the thread extended, and never with
    [InvalidReference]. *)
Lemma run_events_wf (evs : list Event) (s : session) :
  current_is_last s →
  current_is_last (run_events evs s).1 ∧
  extends_thread (items_of s) (items_of (run_events evs s).1) ∧
  (run_events evs s).2 ≠ Raise InvalidReference.
Proof.
  intros Hs.
  destruct (sound_run_events evs s Hs) as [H1 H2].
  split; [exact H1 |]. split; [exact H2 |].
  apply (safe_for_each evs handle_event sound_handle_event
           safe_handle_event s Hs).
Qed.

End SafeEvents.

(** C9, as the claim states it, fails.  One token event carrying a text
    part and a tool-call part, handled at the start of a session on a
    thread of one item, leaves a thread of three items: two items are
    appended by the one event, which is none of the three outcomes the
    claim allows. *)
Lemma token_with_two_parts_appends_two_items :
  let ev := token [text_part "a"; tool_part "calc" "{"] in
  let s := ChatDisplay.open_stream (mkStream "<stream>" [ev]) hello_display in
  let s' := (ChatDisplay.handle_event ev s).1 in
  items_of s = [hello_item] ∧
  items_of s' =
    [hello_item; ThreadItem.append_text "a" None blank_agent;
     tool_item_of (tool_part "calc" "{")] ∧
  ¬ one_change (items_of s) (items_of s').
Proof.
  intros ev s s'.
  assert (items_of s = [hello_item]) as Hold by reflexivity.
  assert (items_of s' =
    [hello_item; ThreadItem.append_text "a" None blank_agent;
     tool_item_of (tool_part "calc" "{")]) as Hnew by reflexivity.
  split; [exact Hold |]. split; [exact Hnew |].
  rewrite Hold, Hnew.
  intros [H | [(init & x & y & H1 & H2) | (item & H)]].
  - apply (f_equal length) in H. discriminate H.
  - apply (f_equal length) in H1, H2.
    rewrite length_app in H1, H2. simpl in H1, H2. lia.
  - apply (f_equal length) in H. discriminate H.
Qed.

(** * Further properties *)

(** ** ThreadItem: the sender and the label *)

Lemma init_ok (text sender : string) (tn : option string)
  (item : ThreadItem.t) :
  ThreadItem.__init__ text sender tn = Ok item →
  valid_sender sender ∧
  ∃ d, ThreadItem.description_of sender = Ok d ∧
    item = ThreadItem.mk sender text tn
             (widgets.mkHTML (ThreadItem.html_of sender text tn) d).
Proof.
  intros Hi.
  destruct (contains _LABEL_COLOURS sender) eqn:Hc.
  - apply contains_label_colours in Hc. split; [exact Hc |].
    destruct (init_valid text sender tn Hc) as (d & Hd & Hi').
    exists d. split; [exact Hd |]. congruence.
  - unfold ThreadItem.__init__ in Hi. rewrite Hc in Hi. discriminate Hi.
Qed.

Lemma set_sender_ok (role : string) (self : ThreadItem.t) :
  valid_sender role →
  ∃ d, ThreadItem.description_of role = Ok d ∧
    ThreadItem.set_sender role self =
      (ThreadItem.with_description d (ThreadItem.with_sender role self),
       Ok tt).
Proof.
  intros Hv. destruct (description_of_valid role Hv) as [d Hd].
  exists d. split; [exact Hd |].
  unfold ThreadItem.set_sender, ThreadItem.description.
  apply contains_label_colours in Hv. rewrite Hv. simpl. by rewrite Hd.
Qed.

Lemma set_sender_invalid (role : string) (self : ThreadItem.t) :
  ¬ valid_sender role →
  ThreadItem.set_sender role self =
    (self, Raise (ThreadItem.unknown_sender role)).
Proof.
  intros Hn. apply contains_label_colours_false in Hn.
  unfold ThreadItem.set_sender. by rewrite Hn.
Qed.

Lemma call_keeps_sender_and_label (m : method) (self : ThreadItem.t) :
  valid_sender (ThreadItem._sender self) ∧ label_in_sync self →
  valid_sender (ThreadItem._sender (call m self)) ∧
  label_in_sync (call m self).
Proof.
  intros [Hv Hl]. unfold label_in_sync, ThreadItem.description in *.
  destruct m as [text tn | text tn | role]; cbn [call].
  - rewrite update_sender. split; [exact Hv |].
    unfold ThreadItem.update, ThreadItem.store_tool_name.
    by destruct (truthy_opt tn).
  - rewrite append_text_sender. split; [exact Hv |].
    unfold ThreadItem.append_text, ThreadItem.store_tool_name.
    by destruct (truthy_opt tn).
  - destruct (contains _LABEL_COLOURS role) eqn:Hc.
    + apply contains_label_colours in Hc.
      destruct (set_sender_ok role self Hc) as (d & Hd & ->).
      by split.
    + apply contains_label_colours_false in Hc.
      rewrite (set_sender_invalid role self Hc). by split.
Qed.

(** X1. An item built by the constructor and then changed by any
    sequence of [update], [append_text] and assignments to [sender]
    (failed ones included) always has one of the four senders, and the
    label of its widget is the one of its sender: [description], which
    reads [_LABEL_COLOURS[self._sender]], does not raise [KeyError] on
    it. *)
Theorem item_keeps_a_valid_sender
  (text sender : string) (tn : option string) (item : ThreadItem.t)
  (ms : list method) :
  ThreadItem.__init__ text sender tn = Ok item →
  valid_sender (ThreadItem._sender (calls ms item)) ∧
  ThreadItem.description (calls ms item) =
    Ok (widgets.description (ThreadItem._widget (calls ms item))).
Proof.
  intros Hi.
  assert (valid_sender (ThreadItem._sender item) ∧ label_in_sync item)
    as Hinv.
  { destruct (init_ok text sender tn item Hi) as (Hv & d & Hd & ->).
    by split. }
  clear Hi. revert item Hinv. unfold calls.
  induction ms as [|m ms IH]; intros item Hinv; simpl.
  - exact Hinv.
  - apply IH. by apply call_keeps_sender_and_label.
Qed.

Lemma item_keeps_a_valid_sender_witness :
  let after :=
    calls [call_append_text "Hi" None; call_set_sender "robot";
           call_set_sender "tool"; call_update "{}" (Some "calc")]
      blank_agent in
  valid_sender (ThreadItem._sender after) ∧
  ThreadItem.description after =
    Ok (widgets.description (ThreadItem._widget after)).
Proof.
  intros after.
  exact (item_keeps_a_valid_sender EmptyString "agent" None blank_agent
           [call_append_text "Hi" None; call_set_sender "robot";
            call_set_sender "tool"; call_update "{}" (Some "calc")]
           eq_refl).
Defined.

(** ** ThreadItem: what the sender setter leaves stale *)

Lemma length_append (a b : string) :
  String.length (a +:+ b) = String.length a + String.length b.
Proof.
  induction a as [|c a IH]; [reflexivity |].
  change (S (String.length (a +:+ b)) = S (String.length a + String.length b)).
  by rewrite IH.
Qed.

Lemma html_text_tool_length (text : string) (tn : option string) :
  String.length text + 34 ≤ String.length (ThreadItem.html_text "tool" text tn).
Proof.
  unfold ThreadItem.html_text. rewrite String.eqb_refl.
  rewrite !length_append. simpl. lia.
Qed.

Lemma html_text_other_length (sender text : string) (tn : option string) :
  sender ≠ "tool" →
  String.length (ThreadItem.html_text sender text tn) ≤ String.length text + 5.
Proof.
  intros Hs. rewrite (html_text_not_tool sender text tn Hs).
  destruct (Nat.odd _); [| lia].
  unfold closing_fence. rewrite !length_append. simpl. lia.
Qed.

Lemma html_text_same_kind (s1 s2 text : string) (tn : option string) :
  (s1 = "tool" ↔ s2 = "tool") →
  ThreadItem.html_text s1 text tn = ThreadItem.html_text s2 text tn.
Proof.
  intros Hk. unfold ThreadItem.html_text.
  destruct (String.eqb_spec s1 "tool") as [H1 | H1];
    destruct (String.eqb_spec s2 "tool") as [H2 | H2];
    try reflexivity; tauto.
Qed.

Lemma html_text_other_kind (s1 s2 text : string) (tn : option string) :
  ¬ (s1 = "tool" ↔ s2 = "tool") →
  ThreadItem.html_text s1 text tn ≠ ThreadItem.html_text s2 text tn.
Proof.
  intros Hk Heq. apply (f_equal String.length) in Heq.
  destruct (decide (s1 = "tool")) as [-> | H1];
    destruct (decide (s2 = "tool")) as [-> | H2]; try tauto.
  - pose proof (html_text_tool_length text tn).
    pose proof (html_text_other_length s2 text tn H2). lia.
  - pose proof (html_text_tool_length text tn).
    pose proof (html_text_other_length s1 text tn H1). lia.
Qed.

(** X2. A successful assignment to [sender] changes the label of the
    widget and never its HTML.  The HTML shown stays the one of the
    fields when the old and the new sender are both [tool] or both not;
    when exactly one of them is [tool], the text that was handed to the
    markdown converter differs from the one that the [html] property now
    derives: the widget is stale until the next [update] or
    [append_text]. *)
Theorem sender_setter_leaves_html (self : ThreadItem.t) (role : string) :
  valid_sender role →
  html_in_sync self →
  let self' := (ThreadItem.set_sender role self).1 in
  widgets.value (ThreadItem._widget self') =
    widgets.value (ThreadItem._widget self) ∧
  label_in_sync self' ∧
  ((role = "tool" ↔ ThreadItem._sender self = "tool") → html_in_sync self') ∧
  (¬ (role = "tool" ↔ ThreadItem._sender self = "tool") →
   markdown2.source (widgets.value (ThreadItem._widget self')) ≠
   markdown2.source (ThreadItem.html self')).
Proof.
  intros Hv Hsync self'.
  destruct (set_sender_ok role self Hv) as (d & Hd & Hset).
  unfold self'. rewrite Hset. simpl.
  unfold html_in_sync, label_in_sync, ThreadItem.description in *. simpl.
  split; [reflexivity |]. split; [exact Hd |].
  rewrite Hsync. unfold ThreadItem.html, ThreadItem.html_of. simpl.
  split.
  - intros Hk. f_equal. apply html_text_same_kind. tauto.
  - intros Hk. apply html_text_other_kind. tauto.
Qed.

Lemma sender_setter_leaves_html_witness :
  let said := ThreadItem.append_text "Calling the tool" None blank_agent in
  let self' := (ThreadItem.set_sender "tool" said).1 in
  markdown2.source (widgets.value (ThreadItem._widget self')) ≠
  markdown2.source (ThreadItem.html self').
Proof.
  intros said self'.
  refine (proj2 (proj2 (proj2
    (sender_setter_leaves_html said "tool" _ eq_refl))) _).
  - right; right; right; reflexivity.
  - intros [H _]. discriminate (H eq_refl).
Defined.

(** ** ThreadItem: the fences of the text handed to the converter *)

Lemma line_fence_LF : line_fence = LF.
Proof. reflexivity. Qed.

Lemma closing_fence_FENCE : closing_fence = FENCE.
Proof. reflexivity. Qed.

(** The fence appended to a text starts no marker that begins inside the
    text. *)
Lemma prefix_LF_app_FENCE (c : ascii) (s : string) :
  String.prefix LF (String c (s +:+ FENCE)) = String.prefix LF (String c s).
Proof.
  destruct s as [|c1 [|c2 [|c3 [|c4 s]]]];
    cbv [LF FENCE NL String.append String.prefix];
    repeat match goal with
    | |- context [ascii_dec ?a ?b] => destruct (ascii_dec a b); subst
    end; try reflexivity; congruence.
Qed.

Lemma prefix_LF_length (c : ascii) (s : string) :
  String.prefix LF (String c s) = true → 3 ≤ String.length s.
Proof.
  destruct s as [|c1 [|c2 [|c3 [|c4 s]]]];
    cbv [LF String.prefix];
    repeat match goal with
    | |- context [ascii_dec ?a ?b] => destruct (ascii_dec a b); subst
    end; try (intros H; discriminate H); intros _; simpl; lia.
Qed.

Lemma count_from_app_FENCE (s : string) (skip : nat) :
  skip ≤ String.length s →
  count_from LF skip (s +:+ FENCE) = S (count_from LF skip s).
Proof.
  revert skip. induction s as [|c s IH]; intros skip Hskip.
  - simpl in Hskip. assert (skip = 0) as -> by lia. reflexivity.
  - change (String c s +:+ FENCE) with (String c (s +:+ FENCE)).
    destruct skip as [|k].
    + cbn [count_from]. rewrite prefix_LF_app_FENCE.
      destruct (String.prefix LF (String c s)) eqn:Hp.
      * rewrite IH; [reflexivity |].
        apply prefix_LF_length in Hp. simpl. lia.
      * apply IH. lia.
    + cbn [count_from]. apply IH. simpl in Hskip. lia.
Qed.

Lemma count_app_closing_fence (text : string) :
  count (text +:+ closing_fence) line_fence = S (count text line_fence).
Proof.
  rewrite closing_fence_FENCE, line_fence_LF.
  change (count_from LF 0 (text +:+ FENCE) = S (count_from LF 0 text)).
  apply count_from_app_FENCE. lia.
Qed.

(** X3. For every item whose sender is not [tool], the text handed to
    the markdown converter holds an even number of fence markers (a line
    break followed by three backticks, counted as [html] counts them):
    the fence that [html] appends to an odd text is itself one more
    marker and starts no other.  Hence deriving the HTML text again from
    that text changes nothing. *)
Theorem html_text_has_even_fences (sender text : string)
  (tn : option string) :
  sender ≠ "tool" →
  Nat.even (count (ThreadItem.html_text sender text tn) line_fence) = true ∧
  ThreadItem.html_text sender (ThreadItem.html_text sender text tn) tn =
    ThreadItem.html_text sender text tn.
Proof.
  intros Hs.
  assert (Nat.even (count (ThreadItem.html_text sender text tn) line_fence)
          = true) as He.
  { rewrite (html_text_not_tool sender text tn Hs).
    destruct (Nat.odd (count text line_fence)) eqn:Ho.
    - rewrite count_app_closing_fence, Nat.even_succ. exact Ho.
    - rewrite <- Nat.negb_odd, Ho. reflexivity. }
  split; [exact He |].
  rewrite (html_text_not_tool sender (ThreadItem.html_text sender text tn)
             tn Hs).
  by rewrite <- Nat.negb_even, He.
Qed.

Lemma html_text_has_even_fences_witness :
  let text := "Run:" +:+ NL +:+ "```python" +:+ NL +:+ "print(1)" in
  Nat.even (count (ThreadItem.html_text "agent" text None) line_fence)
    = true ∧
  ThreadItem.html_text "agent" (ThreadItem.html_text "agent" text None) None
    = ThreadItem.html_text "agent" text None.
Proof.
  intros text.
  apply (html_text_has_even_fences "agent" text None). discriminate.
Defined.

(** ** The reducer: invariants of a run *)

Section Keeps.

Import ChatDisplay.

Variable I : session → Prop.

Lemma keeps_ret {A} (a : A) : keeps I (ret a).
Proof. by intros s Hs. Qed.

Lemma keeps_raise {A} (e : exn) : keeps I (@raise session A e).
Proof. by intros s Hs. Qed.

Lemma keeps_bind {A B} (m : M session A) (k : A → M session B) :
  keeps I m → (∀ a, keeps I (k a)) → keeps I (bind m k).
Proof.
  intros Hm Hk s Hs. unfold bind. specialize (Hm s Hs).
  destruct (m s) as [s1 [a|e]]; simpl in *; [by apply Hk | exact Hm].
Qed.

Lemma keeps_getitem {V} (dict : gmap string V) (key : string) :
  keeps I (getitem dict key).
Proof.
  unfold getitem. destruct (dict !! key); [apply keeps_ret | apply keeps_raise].
Qed.

Lemma keeps_last_item {A} (l : list A) : keeps I (last_item l).
Proof.
  unfold last_item. destruct (last l); [apply keeps_ret | apply keeps_raise].
Qed.

Lemma keeps_for_each {A} (l : list A) (body : A → M session unit) :
  (∀ a, keeps I (body a)) → keeps I (for_each l body).
Proof.
  intros Hb. induction l as [|a l IH]; [apply keeps_ret |].
  simpl. apply keeps_bind; [apply Hb | intros _; exact IH].
Qed.

Hypothesis HI : part_invariant I.

Lemma keeps_ensure_agent : keeps I (ensure_current "agent" None).
Proof.
  intros s Hs.
  unfold ensure_current, bind, is_none_or_not, on_self, _push_new_message,
    set_current, modify.
  rewrite init_blank_agent.
  destruct (current_message s) as [i|].
  - destruct (thread_items (self s) !! i) as [item|]; [| exact Hs].
    destruct (negb (String.eqb (ThreadItem.sender item) "agent"));
      [| exact Hs].
    by apply (inv_push_agent I HI).
  - by apply (inv_push_agent I HI).
Qed.

Lemma keeps_ensure_tool (tn : option string) :
  keeps I (ensure_current "tool" tn).
Proof.
  intros s Hs.
  unfold ensure_current, bind, is_none_or_not, on_self, _push_new_message,
    set_current, modify.
  rewrite init_blank_tool.
  destruct (current_message s) as [i|].
  - destruct (thread_items (self s) !! i) as [item|]; [| exact Hs].
    destruct (negb (String.eqb (ThreadItem.sender item) "tool"));
      [| exact Hs].
    by apply (inv_push_tool I HI).
  - by apply (inv_push_tool I HI).
Qed.

Lemma keeps_update (text : string) (tn : option string) :
  keeps I (on_current (ThreadItem.update text tn)).
Proof.
  intros s Hs. unfold on_current.
  destruct (current_message s) as [i|] eqn:Hc; [| exact Hs].
  destruct (thread_items (self s) !! i) as [item|] eqn:Hl; [| exact Hs].
  by apply (inv_update I HI s i item).
Qed.

Lemma keeps_append_text (text : string) (tn : option string) :
  keeps I (on_current (ThreadItem.append_text text tn)).
Proof.
  intros s Hs. unfold on_current.
  destruct (current_message s) as [i|] eqn:Hc; [| exact Hs].
  destruct (thread_items (self s) !! i) as [item|] eqn:Hl; [| exact Hs].
  by apply (inv_append_text I HI s i item).
Qed.

Lemma keeps_stream_part (c : Part) : keeps I (stream_part c).
Proof.
  unfold stream_part.
  destruct (has_type c "text").
  { apply keeps_bind; [apply keeps_ensure_agent | intros _].
    apply keeps_bind; [apply keeps_getitem | intros text].
    apply keeps_append_text. }
  destruct (has_type c "tool_use"); [| apply keeps_ret].
  apply keeps_bind; [apply keeps_ensure_tool | intros _].
  destruct (contains c "input"); [| apply keeps_ret].
  apply keeps_bind; [apply keeps_getitem | intros input].
  apply keeps_append_text.
Qed.

Lemma keeps_final_part (c : Part) : keeps I (final_part c).
Proof.
  unfold final_part.
  destruct (has_type c "text").
  { apply keeps_bind; [apply keeps_getitem | intros text].
    apply keeps_bind; [apply keeps_ensure_agent | intros _].
    apply keeps_update. }
  destruct (has_type c "tool_use"); [| apply keeps_ret].
  destruct (contains c "input"); [| apply keeps_ret].
  apply keeps_bind; [apply keeps_getitem | intros input].
  apply keeps_bind; [apply keeps_ensure_tool | intros _].
  apply keeps_update.
Qed.

Hypothesis Hreset : ∀ s, I s → I (reset s).

Lemma keeps_dispatch (ev : Event) : keeps I (dispatch ev).
Proof.
  unfold dispatch.
  destruct (String.eqb (event ev) "on_chat_model_start").
  { intros s Hs. by apply Hreset. }
  destruct (String.eqb (event ev) "on_chat_model_stream").
  { apply keeps_bind; [apply keeps_getitem | intros content].
    apply keeps_for_each. apply keeps_stream_part. }
  destruct (String.eqb (event ev) "on_chat_model_end"); [| apply keeps_ret].
  apply keeps_bind; [apply keeps_getitem | intros content].
  apply keeps_bind; [apply keeps_last_item | intros c].
  apply keeps_final_part.
Qed.

End Keeps.

Lemma handle_event_dispatch (ev : Event) (s : ChatDisplay.session) :
  ChatDisplay.handle_event ev s = dispatch ev (with_status (event ev) s).
Proof. reflexivity. Qed.

Lemma keeps_handle_event (I : ChatDisplay.session → Prop) (ev : Event) :
  event_invariant I → keeps I (ChatDisplay.handle_event ev).
Proof.
  intros [Hp Hst Hre] s Hs. rewrite handle_event_dispatch.
  apply (keeps_dispatch I Hp Hre). by apply Hst.
Qed.

Lemma keeps_run_events (I : ChatDisplay.session → Prop) (evs : list Event) :
  event_invariant I → keeps I (ChatDisplay.run_events evs).
Proof.
  intros HI. apply keeps_for_each. intros ev. by apply keeps_handle_event.
Qed.

Section History.

Import ChatDisplay.

Variable old : list ThreadItem.t.
Variable Q : ThreadItem.t → Prop.

Hypothesis Q_agent : Q blank_agent.
Hypothesis Q_tool : ∀ tn, Q (blank_tool tn).
Hypothesis Q_update : ∀ item text tn, Q item → Q (ThreadItem.update text tn item).
Hypothesis Q_append_text :
  ∀ item text tn, Q item → Q (ThreadItem.append_text text tn item).

Lemma history_pushed (s : session) (item : ThreadItem.t) :
  Q item → history old Q s → history old Q (pushed s item).
Proof.
  intros Hq (added & Hitems & Hall & _).
  exists (added ++ [item]). split; [| split].
  - rewrite items_of_pushed, Hitems. by rewrite <- app_assoc.
  - apply Forall_app. split; [exact Hall | by apply Forall_singleton].
  - simpl. rewrite Hitems, length_app. lia.
Qed.

Lemma history_edited (s : session) (i : nat) (item : ThreadItem.t)
  (f : ThreadItem.t → ThreadItem.t) :
  (Q item → Q (f item)) →
  history old Q s →
  current_message s = Some i →
  items_of s !! i = Some item →
  history old Q (edited s i (f item)).
Proof.
  intros Hf (added & Hitems & Hall & Hcur) Hc Hl.
  rewrite Hc in Hcur. rewrite Hitems in Hl.
  rewrite lookup_app_r in Hl by exact Hcur.
  exists (<[i - length old := f item]> added). split; [| split].
  - change (<[i := f item]> (items_of s)
            = old ++ <[i - length old := f item]> added).
    rewrite Hitems. by apply insert_app_r_alt.
  - apply Forall_insert; [exact Hall |].
    apply Hf. by apply (Forall_lookup_1 Q added (i - length old)).
  - exact Hcur.
Qed.

Lemma history_event_invariant : event_invariant (history old Q).
Proof.
  split; [split | |].
  - intros s Hs. by apply history_pushed.
  - intros s tn Hs. by apply history_pushed.
  - intros s i item text tn Hs Hc Hl.
    apply (history_edited s i item (ThreadItem.update text tn));
      [apply Q_update | done..].
  - intros s i item text tn Hs Hc Hl.
    apply (history_edited s i item (ThreadItem.append_text text tn));
      [apply Q_append_text | done..].
  - intros value s (added & Hitems & Hall & Hcur). by exists added.
  - intros s (added & Hitems & Hall & Hcur). by exists added.
Qed.

Lemma process_message_history (stream : Stream) (d : t) :
  old = thread_items d →
  ∃ added,
    thread_items (process_message stream d).1 = old ++ added ∧
    Forall Q added.
Proof.
  intros Hold.
  assert (history old Q (open_stream stream d)) as H0.
  { exists []. split; [| by split]. rewrite app_nil_r. by rewrite Hold. }
  pose proof (keeps_run_events (history old Q) (events stream)
                history_event_invariant _ H0) as (added & Hitems & Hall & _).
  exists added. split; [| exact Hall].
  unfold process_message.
  destruct (run_events (events stream) (open_stream stream d)) as [s r].
  exact Hitems.
Qed.

End History.

Lemma from_reducer_update (item : ThreadItem.t) (text : string)
  (tn : option string) :
  from_reducer item → from_reducer (ThreadItem.update text tn item).
Proof. unfold from_reducer. by rewrite update_sender. Qed.

Lemma from_reducer_append_text (item : ThreadItem.t) (text : string)
  (tn : option string) :
  from_reducer item → from_reducer (ThreadItem.append_text text tn item).
Proof. unfold from_reducer. by rewrite append_text_sender. Qed.

(** X4. Whatever the stream and whatever the outcome of the run
    (completed, or ended by an exception), [process_message] leaves every
    item that was in the thread before the run in its place and
    unchanged: the thread after the run is the thread before it followed
    by the items the run has appended, and each of these is an agent or a
    tool item. *)
Theorem run_keeps_the_history (stream : Stream) (d : ChatDisplay.t) :
  ∃ added,
    ChatDisplay.thread_items (ChatDisplay.process_message stream d).1 =
      ChatDisplay.thread_items d ++ added ∧
    Forall from_reducer added.
Proof.
  apply (process_message_history (ChatDisplay.thread_items d) from_reducer).
  - by left.
  - intros tn. by right.
  - apply from_reducer_update.
  - apply from_reducer_append_text.
  - reflexivity.
Qed.

Lemma rendered_update (item : ThreadItem.t) (text : string)
  (tn : option string) :
  rendered item → rendered (ThreadItem.update text tn item).
Proof.
  intros [_ Hl]. unfold rendered, html_in_sync, label_in_sync in *.
  unfold ThreadItem.description in *. rewrite update_sender.
  unfold ThreadItem.update, ThreadItem.store_tool_name.
  by destruct (truthy_opt tn).
Qed.

Lemma rendered_append_text (item : ThreadItem.t) (text : string)
  (tn : option string) :
  rendered item → rendered (ThreadItem.append_text text tn item).
Proof.
  intros [_ Hl]. unfold rendered, html_in_sync, label_in_sync in *.
  unfold ThreadItem.description in *. rewrite append_text_sender.
  unfold ThreadItem.append_text, ThreadItem.store_tool_name.
  by destruct (truthy_opt tn).
Qed.

(** X5. Every item that a run of [process_message] appends to the thread
    ends the run, whatever its outcome, with a widget that shows the HTML
    and the label derived from its fields: no path of the reducer changes
    the text or the tool name of an item without rendering it again. *)
Theorem run_renders_what_it_appends (stream : Stream) (d : ChatDisplay.t) :
  ∃ added,
    ChatDisplay.thread_items (ChatDisplay.process_message stream d).1 =
      ChatDisplay.thread_items d ++ added ∧
    Forall rendered added.
Proof.
  apply (process_message_history (ChatDisplay.thread_items d) rendered).
  - by split.
  - intros tn. by split.
  - apply rendered_update.
  - apply rendered_append_text.
  - reflexivity.
Qed.

(** ** The reducer: how a run ends *)

Section Outcome.

Import ChatDisplay.

(** With one of the two roles of the reducer, [ensure_current] ends well
    and leaves a current message that denotes an item. *)
Lemma ensure_current_valid (role : string) (tn : option string)
  (s : session) :
  valid_sender role → current_is_last s →
  ∃ s', ensure_current role tn s = (s', Ok tt) ∧ has_current s'.
Proof.
  intros Hv Hs.
  destruct (ensure_current_has_current role tn s Hs)
    as [H | (s' & msg & Hr)]; [exact H | exfalso].
  revert Hr.
  destruct (init_valid EmptyString role tn Hv) as (dsc & _ & Hi).
  unfold ensure_current, bind, is_none_or_not, on_self, _push_new_message,
    set_current, modify.
  rewrite Hi.
  destruct (current_message s) as [i|].
  - destruct (thread_items (self s) !! i) as [item|]; [| discriminate].
    destruct (negb (String.eqb (ThreadItem.sender item) role));
      discriminate.
  - discriminate.
Qed.

Lemma ensure_then_on_current_ok (role : string) (tn : option string)
  (f : ThreadItem.t → ThreadItem.t) (s : session) :
  valid_sender role → current_is_last s →
  ∃ s', bind (ensure_current role tn) (fun _ => on_current f) s
          = (s', Ok tt).
Proof.
  intros Hv Hs. unfold bind.
  destruct (ensure_current_valid role tn s Hv Hs) as (s1 & -> & Hh).
  by apply on_current_has_current.
Qed.

Lemma valid_agent : valid_sender "agent".
Proof. right; right; by left. Qed.

Lemma valid_tool : valid_sender "tool".
Proof. by repeat right. Qed.

(** A part of a token event ends well exactly when it is well formed,
    and otherwise with [KeyError('text')]. *)
Lemma stream_part_outcome (c : Part) (s : session) :
  current_is_last s →
  (well_formed_part c ∧ (stream_part c s).2 = Ok tt) ∨
  (¬ well_formed_part c ∧ (stream_part c s).2 = Raise (KeyError "text")).
Proof.
  intros Hs. unfold well_formed_part.
  destruct (decide (c !! "type" = Some "text")) as [Ht | Hnt].
  { destruct (c !! "text") as [text|] eqn:Hx.
    - left. split; [by eexists |].
      rewrite (stream_part_text s c text Ht Hx).
      by destruct (ensure_then_on_current_ok "agent" None
                     (ThreadItem.append_text text None) s valid_agent Hs)
        as [s' ->].
    - right. split; [intros H; by destruct (H Ht) |].
      rewrite (stream_part_text_missing s c Ht Hx). unfold bind.
      by destruct (ensure_current_valid "agent" None s valid_agent Hs)
        as (s' & -> & _). }
  left. split; [tauto |].
  destruct (decide (c !! "type" = Some "tool_use")) as [Hu | Hnu].
  - rewrite (stream_part_tool s c Hu).
    destruct (c !! "input") as [input|].
    + by destruct (ensure_then_on_current_ok "tool" (c !! "name")
                     (ThreadItem.append_text input (c !! "name")) s
                     valid_tool Hs) as [s' ->].
    + unfold bind.
      by destruct (ensure_current_valid "tool" (c !! "name") s valid_tool Hs)
        as (s' & -> & _).
  - by rewrite (stream_part_other s c Hnt Hnu).
Qed.

Lemma final_part_outcome (c : Part) (s : session) :
  current_is_last s →
  (well_formed_part c ∧ (final_part c s).2 = Ok tt) ∨
  (¬ well_formed_part c ∧ (final_part c s).2 = Raise (KeyError "text")).
Proof.
  intros Hs. unfold well_formed_part.
  destruct (decide (c !! "type" = Some "text")) as [Ht | Hnt].
  { destruct (c !! "text") as [text|] eqn:Hx.
    - left. split; [by eexists |].
      rewrite (final_part_text s c text Ht Hx).
      by destruct (ensure_then_on_current_ok "agent" None
                     (ThreadItem.update text None) s valid_agent Hs)
        as [s' ->].
    - right. split; [intros H; by destruct (H Ht) |].
      by rewrite (final_part_text_missing s c Ht Hx). }
  left. split; [tauto |].
  destruct (decide (c !! "type" = Some "tool_use")) as [Hu | Hnu].
  - rewrite (final_part_tool s c Hu).
    destruct (c !! "input") as [input|]; [| reflexivity].
    by destruct (ensure_then_on_current_ok "tool" (c !! "name")
                   (ThreadItem.update input (c !! "name")) s
                   valid_tool Hs) as [s' ->].
  - by rewrite (final_part_other s c Hnt Hnu).
Qed.

(** The parts of one token event. *)
Lemma stream_parts_outcome (content : list Part) (s : session) :
  current_is_last s →
  (Forall well_formed_part content ∧
   (for_each content stream_part s).2 = Ok tt) ∨
  (¬ Forall well_formed_part content ∧
   (for_each content stream_part s).2 = Raise (KeyError "text")).
Proof.
  revert s. induction content as [|c content IH]; intros s Hs.
  { left. by split. }
  rewrite for_each_cons.
  pose proof (sound_stream_part c s Hs) as [Hs1 _].
  destruct (stream_part_outcome c s Hs) as [[Hw Hr] | [Hw Hr]];
    destruct (stream_part c s) as [s1 r1]; simpl in Hr, Hs1; subst r1.
  - destruct (IH s1 Hs1) as [[Hall Hr'] | [Hall Hr']].
    + left. split; [by constructor | exact Hr'].
    + right. split; [| exact Hr'].
      intros Hbad. apply Hall. by inversion Hbad.
  - right. split; [| reflexivity].
    intros Hbad. apply Hw. by inversion Hbad.
Qed.

End Outcome.

Section RunOutcome.

Import ChatDisplay.

Lemma current_is_last_with_status (value : string) (s : session) :
  current_is_last s → current_is_last (with_status value s).
Proof. by intros Hs. Qed.

Lemma handle_event_outcome (ev : Event) (s : session) :
  current_is_last s →
  (well_formed_event ev ∧ (handle_event ev s).2 = Ok tt) ∨
  (¬ well_formed_event ev ∧
   ∃ e, (handle_event ev s).2 = Raise e ∧ stream_error e).
Proof.
  intros Hs. unfold well_formed_event.
  destruct (decide (event ev = "on_chat_model_stream")) as [He | Hns].
  { destruct (data ev !! "chunk") as [content|] eqn:Hd.
    - rewrite (handle_event_stream s ev content He Hd).
      destruct (stream_parts_outcome content
                  (with_status "on_chat_model_stream" s)
                  (current_is_last_with_status _ s Hs))
        as [[Hall Hr] | [Hall Hr]].
      + left. split; [| exact Hr]. split.
        * intros _. by exists content.
        * rewrite He. discriminate.
      + right. split.
        * intros [H _]. destruct (H He) as (content' & Hd' & Hall').
          apply Hall. congruence.
        * exists (KeyError "text"). split; [exact Hr |].
          right; right; by left.
    - right. split.
      + intros [H _]. destruct (H He) as (content' & Hd' & _). congruence.
      + exists (KeyError "chunk"). split; [| by left].
        unfold handle_event. rewrite He. unfold bind at 1. simpl.
        unfold bind at 1. unfold getitem. by rewrite Hd. }
  destruct (decide (event ev = "on_chat_model_end")) as [He | Hne].
  { destruct (data ev !! "output") as [content|] eqn:Hd.
    - rewrite (handle_event_end s ev content He Hd).
      destruct (last content) as [c|] eqn:Hlast.
      + destruct (final_part_outcome c (with_status "on_chat_model_end" s)
                    (current_is_last_with_status _ s Hs))
          as [[Hw Hr] | [Hw Hr]].
        * left. split; [| exact Hr]. split; [tauto |].
          intros _. by exists content, c.
        * right. split.
          -- intros [_ H]. destruct (H He) as (content' & c' & Hd' & Hl' & Hw').
             apply Hw. congruence.
          -- exists (KeyError "text"). split; [exact Hr |].
             right; right; by left.
      + right. split.
        * intros [_ H]. destruct (H He) as (content' & c' & Hd' & Hl' & _).
          congruence.
        * eexists. split; [reflexivity | by repeat right].
    - right. split.
      + intros [_ H]. destruct (H He) as (content' & c' & Hd' & _).
        congruence.
      + exists (KeyError "output"). split; [| right; by left].
        unfold handle_event. rewrite He. unfold bind at 1. simpl.
        unfold bind at 1. unfold getitem. by rewrite Hd. }
  left. split; [tauto |].
  destruct (decide (event ev = "on_chat_model_start")) as [He | Hnst].
  - by rewrite (handle_event_start s ev He).
  - by rewrite (handle_event_other s ev Hnst Hns Hne).
Qed.

Lemma run_events_outcome (evs : list Event) (s : session) :
  current_is_last s →
  (Forall well_formed_event evs ∧ (run_events evs s).2 = Ok tt) ∨
  (¬ Forall well_formed_event evs ∧
   ∃ e, (run_events evs s).2 = Raise e ∧ stream_error e).
Proof.
  revert s. induction evs as [|ev evs IH]; intros s Hs.
  { left. by split. }
  rewrite run_events_cons.
  pose proof (sound_handle_event ev s Hs) as [Hs1 _].
  destruct (handle_event_outcome ev s Hs) as [[Hw Hr] | [Hw (e & Hr & He)]];
    destruct (handle_event ev s) as [s1 r1]; simpl in Hr, Hs1; subst r1.
  - destruct (IH s1 Hs1) as [[Hall Hr'] | [Hall Hr']].
    + left. split; [by constructor | exact Hr'].
    + right. split; [| exact Hr'].
      intros Hbad. apply Hall. by inversion Hbad.
  - right. split; [| by exists e].
    intros Hbad. apply Hw. by inversion Hbad.
Qed.

Lemma process_message_result (stream : Stream) (d : t) :
  (process_message stream d).2 =
    (run_events (events stream) (open_stream stream d)).2.
Proof.
  unfold process_message.
  by destruct (run_events (events stream) (open_stream stream d)).
Qed.

End RunOutcome.

(** X6. A run of [process_message] over a stream that yields finitely
    many events and then ends or raises ends in one of three ways: the
    stream is exhausted; or the stream raises its own exception, after
    every event it has yielded was handled without one; or the body of
    the loop raises one of four exceptions, [KeyError] for the key
    [chunk], [output] or [text], or the [IndexError] of [content[-1]].
    The constructor of [ThreadItem] never raises inside the reducer, and
    the key [input] never raises, being tested before it is read. *)
Theorem run_raises_only_stream_errors (E : Type) (stream : Stream)
  (failure : option E) (d : ChatDisplay.t) :
  match (process_stream stream failure d).2 with
  | completed =>
      failure = None ∧ (ChatDisplay.process_message stream d).2 = Ok tt
  | raised e =>
      stream_error e ∧ (ChatDisplay.process_message stream d).2 = Raise e
  | stream_failed e =>
      failure = Some e ∧ (ChatDisplay.process_message stream d).2 = Ok tt
  end.
Proof.
  unfold process_stream.
  pose proof (run_events_outcome (events stream)
                (ChatDisplay.open_stream stream d)
                (open_stream_current_is_last stream d)) as Hout.
  rewrite <- process_message_result in Hout.
  destruct (ChatDisplay.process_message stream d) as [d' [[]|e]];
    simpl in *.
  - by destruct failure as [e|].
  - destruct Hout as [[_ Hr] | [_ (e' & Hr & He)]]; [discriminate |].
    injection Hr as ->. by split.
Qed.

(** X7. A run of [process_message] over a stream that yields finitely
    many events and then ends or raises completes without an exception
    exactly when the stream ends without raising and every event it has
    yielded is well formed: each token event has a [chunk] whose text
    parts all have a [text], and each turn-end event has a non-empty
    [output] whose last part, if it is a text part, has a [text]. *)
Theorem run_completes_iff_well_formed (E : Type) (stream : Stream)
  (failure : option E) (d : ChatDisplay.t) :
  (process_stream stream failure d).2 = completed ↔
  Forall well_formed_event (events stream) ∧ failure = None.
Proof.
  unfold process_stream.
  pose proof (run_events_outcome (events stream)
                (ChatDisplay.open_stream stream d)
                (open_stream_current_is_last stream d)) as Hout.
  rewrite <- process_message_result in Hout.
  destruct (ChatDisplay.process_message stream d) as [d' [[]|e]];
    simpl in *.
  - destruct Hout as [[Hall _] | [_ (e' & Hr & _)]]; [| discriminate].
    destruct failure as [e|]; split; try done.
    + by intros [_ ?].
  - destruct Hout as [[_ Hr] | [Hall _]]; [discriminate |].
    split; [discriminate | tauto].
Qed.

(** ** The reducer: one part, one change *)

Section OneChange.

Import ChatDisplay.

Lemma insert_last_snoc {A} (l : list A) (i : nat) (x y : A) :
  S i = length l → l !! i = Some x →
  ∃ init, l = init ++ [x] ∧ <[i := y]> l = init ++ [y].
Proof.
  intros Hi Hl. exists (take i l).
  assert (l = take i l ++ [x]) as Hsplit.
  { rewrite <- (take_S_r l i x Hl). rewrite Hi. by rewrite firstn_all. }
  split; [exact Hsplit |].
  rewrite Hsplit at 1.
  assert (length (take i l) = i) as Hlen by (rewrite length_take; lia).
  rewrite <- Hlen at 1. apply insert_snoc_last.
Qed.

Lemma ensure_current_two_cases (role : string) (tn : option string)
  (s : session) :
  valid_sender role → current_is_last s →
  (ensure_current role tn s = (s, Ok tt) ∧
   ∃ i item, current_message s = Some i ∧ items_of s !! i = Some item) ∨
  (∃ fresh, ensure_current role tn s = (pushed s fresh, Ok tt)).
Proof.
  intros Hv Hs. unfold current_is_last in Hs.
  destruct (init_valid EmptyString role tn Hv) as (dsc & _ & Hi).
  destruct (current_message s) as [i|] eqn:Hc.
  - destruct (lookup_lt_is_Some_2 (items_of s) i) as [item Hl].
    { unfold items_of. lia. }
    destruct (decide (ThreadItem._sender item = role)) as [He | Hne].
    + left. split; [by apply (ensure_current_same s role tn i item) |].
      by exists i, item.
    + right. eexists. by eapply (ensure_current_other s role tn _ i item).
  - right. eexists. by eapply ensure_current_None.
Qed.

Lemma one_change_pushed (s : session) (item : ThreadItem.t) :
  one_change (items_of s) (items_of (pushed s item)).
Proof. right; right. by exists item. Qed.

Lemma one_change_edited (s : session) (i : nat) (x y : ThreadItem.t) :
  current_is_last s → current_message s = Some i →
  items_of s !! i = Some x →
  one_change (items_of s) (items_of (edited s i y)).
Proof.
  intros Hs Hc Hl. unfold current_is_last in Hs. rewrite Hc in Hs.
  destruct (insert_last_snoc (items_of s) i x y Hs Hl) as (init & H1 & H2).
  right; left. exists init, x, y. split; [exact H1 | exact H2].
Qed.

Lemma ensure_then_on_current_one_change (role : string) (tn : option string)
  (f : ThreadItem.t → ThreadItem.t) (s : session) :
  valid_sender role → current_is_last s →
  one_change (items_of s)
    (items_of (bind (ensure_current role tn) (fun _ => on_current f) s).1).
Proof.
  intros Hv Hs. unfold bind.
  destruct (ensure_current_two_cases role tn s Hv Hs)
    as [[-> (i & item & Hc & Hl)] | [fresh ->]].
  - rewrite (on_current_at s f i item Hc Hl).
    by apply (one_change_edited s i item).
  - rewrite on_current_pushed. apply one_change_pushed.
Qed.

Lemma ensure_then_one_change {A} (role : string) (tn : option string)
  (k : M session A) (s : session) :
  (∀ s', (k s').1 = s') →
  valid_sender role → current_is_last s →
  one_change (items_of s)
    (items_of (bind (ensure_current role tn) (fun _ => k) s).1).
Proof.
  intros Hk Hv Hs. unfold bind.
  destruct (ensure_current_two_cases role tn s Hv Hs)
    as [[-> _] | [fresh ->]]; rewrite Hk.
  - by left.
  - apply one_change_pushed.
Qed.

Lemma stream_part_one_change (c : Part) (s : session) :
  current_is_last s →
  one_change (items_of s) (items_of (stream_part c s).1).
Proof.
  intros Hs.
  destruct (decide (c !! "type" = Some "text")) as [Ht | Hnt].
  { destruct (c !! "text") as [text|] eqn:Hx.
    - rewrite (stream_part_text s c text Ht Hx).
      by apply ensure_then_on_current_one_change; [apply valid_agent |].
    - rewrite (stream_part_text_missing s c Ht Hx).
      by apply ensure_then_one_change; [| apply valid_agent |]. }
  destruct (decide (c !! "type" = Some "tool_use")) as [Hu | Hnu].
  - rewrite (stream_part_tool s c Hu).
    destruct (c !! "input") as [input|].
    + by apply ensure_then_on_current_one_change; [apply valid_tool |].
    + by apply ensure_then_one_change; [| apply valid_tool |].
  - rewrite (stream_part_other s c Hnt Hnu). by left.
Qed.

Lemma final_part_one_change (c : Part) (s : session) :
  current_is_last s →
  one_change (items_of s) (items_of (final_part c s).1).
Proof.
  intros Hs.
  destruct (decide (c !! "type" = Some "text")) as [Ht | Hnt].
  { destruct (c !! "text") as [text|] eqn:Hx.
    - rewrite (final_part_text s c text Ht Hx).
      by apply ensure_then_on_current_one_change; [apply valid_agent |].
    - rewrite (final_part_text_missing s c Ht Hx). by left. }
  destruct (decide (c !! "type" = Some "tool_use")) as [Hu | Hnu].
  - rewrite (final_part_tool s c Hu).
    destruct (c !! "input") as [input|]; [| by left].
    by apply ensure_then_on_current_one_change; [apply valid_tool |].
  - rewrite (final_part_other s c Hnt Hnu). by left.
Qed.

Lemma handle_event_one_change (ev : Event) (s : session) :
  current_is_last s →
  (∀ content, event ev = "on_chat_model_stream" →
     data ev !! "chunk" = Some content → length content ≤ 1) →
  one_change (items_of s) (items_of (handle_event ev s).1).
Proof.
  intros Hs Hone.
  destruct (decide (event ev = "on_chat_model_stream")) as [He | Hns].
  { destruct (data ev !! "chunk") as [content|] eqn:Hd.
    - rewrite (handle_event_stream s ev content He Hd).
      specialize (Hone content He eq_refl).
      destruct content as [|c [|c' content]]; [by left | | simpl in Hone; lia].
      rewrite for_each_one.
      by apply (stream_part_one_change c (with_status _ s)).
    - left. unfold handle_event. rewrite He. unfold bind at 1. simpl.
      unfold bind at 1. unfold getitem. by rewrite Hd. }
  destruct (decide (event ev = "on_chat_model_end")) as [He | Hne].
  { destruct (data ev !! "output") as [content|] eqn:Hd.
    - rewrite (handle_event_end s ev content He Hd).
      destruct (last content) as [c|]; [| by left].
      by apply (final_part_one_change c (with_status _ s)).
    - left. unfold handle_event. rewrite He. unfold bind at 1. simpl.
      unfold bind at 1. unfold getitem. by rewrite Hd. }
  left.
  destruct (decide (event ev = "on_chat_model_start")) as [He | Hnst].
  - by rewrite (handle_event_start s ev He).
  - by rewrite (handle_event_other s ev Hnst Hns Hne).
Qed.

End OneChange.

(** ** The reducer: what one event appends *)

Section Roles.

Import ChatDisplay.

Lemma senders_of_pushed (s : session) (item : ThreadItem.t) :
  senders_of (pushed s item) = senders_of s ++ [ThreadItem._sender item].
Proof. unfold senders_of. by rewrite items_of_pushed, fmap_app. Qed.

Lemma current_sender_pushed (s : session) (item : ThreadItem.t) :
  current_sender (pushed s item) = Some (ThreadItem._sender item).
Proof.
  unfold current_sender. cbn [current_message pushed].
  by rewrite items_of_pushed, lookup_snoc_last.
Qed.

Lemma current_is_last_pushed (s : session) (item : ThreadItem.t) :
  current_is_last (pushed s item).
Proof.
  unfold current_is_last. simpl. rewrite length_app. simpl.
  unfold items_of. lia.
Qed.

Lemma has_current_pushed (s : session) (item : ThreadItem.t) :
  has_current (pushed s item).
Proof.
  exists (length (items_of s)), item.
  split; [reflexivity | apply lookup_snoc_last].
Qed.

Lemma opens_same (role : string) : opens (Some role) role = [].
Proof. unfold opens. by rewrite decide_True. Qed.

Lemma opens_other (cur : option string) (role : string) :
  cur ≠ Some role → opens cur role = [role].
Proof. intros Hne. unfold opens. by rewrite decide_False. Qed.

Lemma current_sender_at (s : session) (i : nat) (item : ThreadItem.t) :
  current_message s = Some i → items_of s !! i = Some item →
  current_sender s = Some (ThreadItem._sender item).
Proof.
  intros Hc Hl. unfold current_sender. rewrite Hc. cbv beta iota.
  by rewrite Hl.
Qed.

Lemma current_sender_none (s : session) :
  current_message s = None → current_sender s = None.
Proof. intros Hc. unfold current_sender. by rewrite Hc. Qed.

(** [ensure_current] with a role of the reducer opens an item exactly
    when the current message has another sender, or there is none. *)
Lemma ensure_current_senders (role : string) (tn : option string)
  (s : session) :
  valid_sender role → current_is_last s →
  ∃ s', ensure_current role tn s = (s', Ok tt) ∧
    senders_of s' = senders_of s ++ opens (current_sender s) role ∧
    current_sender s' = Some role ∧
    current_is_last s' ∧ has_current s'.
Proof.
  intros Hv Hs.
  destruct (init_valid EmptyString role tn Hv) as (dsc & _ & Hi).
  set (fresh := ThreadItem.mk role EmptyString tn
                  (widgets.mkHTML (ThreadItem.html_of role EmptyString tn)
                     dsc)) in Hi.
  assert (∃ s', (pushed s fresh, Ok tt) = (s', @Ok unit tt) ∧
            senders_of s' = senders_of s ++ [role] ∧
            current_sender s' = Some role ∧
            current_is_last s' ∧ has_current s') as Hpush.
  { exists (pushed s fresh). split; [reflexivity |].
    split; [apply senders_of_pushed |].
    split; [apply current_sender_pushed |].
    split; [apply current_is_last_pushed | apply has_current_pushed]. }
  pose proof Hs as Hlast. unfold current_is_last in Hlast.
  destruct (current_message s) as [i|] eqn:Hc.
  - destruct (lookup_lt_is_Some_2 (items_of s) i) as [item Hl].
    { unfold items_of. lia. }
    rewrite (current_sender_at s i item Hc Hl).
    destruct (decide (ThreadItem._sender item = role)) as [He | Hne].
    + rewrite (ensure_current_same s role tn i item Hc Hl He).
      exists s. split; [reflexivity |].
      rewrite He, opens_same, app_nil_r. split; [reflexivity |].
      split; [by rewrite (current_sender_at s i item Hc Hl), He |].
      split; [exact Hs | by exists i, item].
    + rewrite (ensure_current_other s role tn fresh i item Hc Hl Hne Hi).
      rewrite opens_other by congruence. exact Hpush.
  - rewrite (current_sender_none s Hc).
    rewrite (ensure_current_None s role tn fresh Hc Hi).
    rewrite opens_other by discriminate. exact Hpush.
Qed.

(** A call that keeps the sender, made on the current message. *)
Lemma on_current_senders (f : ThreadItem.t → ThreadItem.t) (s : session) :
  (∀ item, ThreadItem._sender (f item) = ThreadItem._sender item) →
  has_current s → current_is_last s →
  ∃ s', on_current f s = (s', Ok tt) ∧
    senders_of s' = senders_of s ∧
    current_sender s' = current_sender s ∧
    current_is_last s'.
Proof.
  intros Hf (i & item & Hc & Hl) Hs.
  rewrite (on_current_at s f i item Hc Hl).
  exists (edited s i (f item)). split; [reflexivity |].
  assert (i < length (items_of s)) as Hi by (by eapply lookup_lt_Some).
  assert (items_of (edited s i (f item)) = <[i := f item]> (items_of s))
    as Hitems by reflexivity.
  assert (items_of (edited s i (f item)) !! i = Some (f item)) as Hl'.
  { rewrite Hitems. by apply list_lookup_insert_eq. }
  split; [| split].
  - unfold senders_of. rewrite Hitems, list_fmap_insert, Hf.
    apply list_insert_id. by rewrite list_lookup_fmap, Hl.
  - rewrite (current_sender_at s i item Hc Hl).
    rewrite (current_sender_at (edited s i (f item)) i (f item) eq_refl Hl').
    by rewrite Hf.
  - unfold current_is_last in *. rewrite Hc in Hs.
    change (S i = length (items_of (edited s i (f item)))).
    rewrite Hitems, length_insert. exact Hs.
Qed.

Lemma ensure_then_on_current_senders (role : string) (tn : option string)
  (f : ThreadItem.t → ThreadItem.t) (s : session) :
  (∀ item, ThreadItem._sender (f item) = ThreadItem._sender item) →
  valid_sender role → current_is_last s →
  ∃ s', bind (ensure_current role tn) (fun _ => on_current f) s
          = (s', Ok tt) ∧
    senders_of s' = senders_of s ++ opens (current_sender s) role ∧
    current_sender s' = Some role ∧
    current_is_last s'.
Proof.
  intros Hf Hv Hs. unfold bind.
  destruct (ensure_current_senders role tn s Hv Hs)
    as (s1 & -> & Hsend & Hcur & Hs1 & Hh).
  destruct (on_current_senders f s1 Hf Hh Hs1)
    as (s2 & -> & Hsend2 & Hcur2 & Hs2).
  exists s2. split; [reflexivity |].
  rewrite Hsend2, Hcur2. by repeat split.
Qed.

Lemma has_type_false (c : Part) (ty : string) :
  has_type c ty = false → c !! "type" ≠ Some ty.
Proof.
  intros Hf Ht. apply has_type_true in Ht. congruence.
Qed.

(** The senders of the thread after the parts of one token event. *)
Lemma stream_parts_senders (content : list Part) (s : session) :
  current_is_last s →
  senders_of (for_each content stream_part s).1 =
    senders_of s ++ roles_opened (current_sender s) content.
Proof.
  revert s. induction content as [|c rest IH]; intros s Hs.
  { simpl. by rewrite app_nil_r. }
  rewrite for_each_cons. cbn [roles_opened].
  destruct (has_type c "text") eqn:Et.
  { apply has_type_true in Et. unfold contains.
    destruct (c !! "text") as [text|] eqn:Hx.
    - rewrite (stream_part_text s c text Et Hx).
      destruct (ensure_then_on_current_senders "agent" None
                  (ThreadItem.append_text text None) s)
        as (s' & -> & Hsend & Hcur & Hs');
        [intros item; apply append_text_sender | apply valid_agent
        | exact Hs |].
      cbv beta iota. rewrite (IH s' Hs'), Hsend, Hcur.
      by rewrite <- app_assoc.
    - rewrite (stream_part_text_missing s c Et Hx). unfold bind.
      destruct (ensure_current_senders "agent" None s valid_agent Hs)
        as (s' & -> & Hsend & _).
      cbv beta iota. unfold raise. simpl. by rewrite Hsend, app_nil_r. }
  destruct (has_type c "tool_use") eqn:Eu.
  { apply has_type_true in Eu. rewrite (stream_part_tool s c Eu).
    destruct (c !! "input") as [input|].
    - destruct (ensure_then_on_current_senders "tool" (c !! "name")
                  (ThreadItem.append_text input (c !! "name")) s)
        as (s' & -> & Hsend & Hcur & Hs');
        [intros item; apply append_text_sender | apply valid_tool
        | exact Hs |].
      cbv beta iota. rewrite (IH s' Hs'), Hsend, Hcur.
      by rewrite <- app_assoc.
    - unfold bind.
      destruct (ensure_current_senders "tool" (c !! "name") s valid_tool Hs)
        as (s' & -> & Hsend & Hcur & Hs' & _).
      unfold ret. cbv beta iota. rewrite (IH s' Hs'), Hsend, Hcur.
      by rewrite <- app_assoc. }
  rewrite (stream_part_other s c (has_type_false _ _ Et)
             (has_type_false _ _ Eu)).
  cbv beta iota. by apply IH.
Qed.

Lemma handle_event_senders (ev : Event) (content : list Part)
  (s : session) :
  current_is_last s →
  event ev = "on_chat_model_stream" →
  data ev !! "chunk" = Some content →
  senders_of (handle_event ev s).1 =
    senders_of s ++ roles_opened (current_sender s) content.
Proof.
  intros Hs He Hd. rewrite (handle_event_stream s ev content He Hd).
  by rewrite (stream_parts_senders content (with_status _ s)).
Qed.

End Roles.

(** C9 (amended). For every event handled by [process_message] in one
    run, after any events of the stream handled before it: no item is
    removed, and every item other than the one that was the last keeps
    its place and its content.  For every event that is not a token
    event with two or more content parts, the resulting thread is the
    prior one unchanged, or with its last item changed in place, or with
    exactly one item appended.  For a token event, the resulting thread
    is the prior one, with at most its last item changed in place and
    every sender kept, followed by exactly one new item for each content
    part handled whose kind differs from the sender of the item current
    at that point: an agent item for a text part, a tool item for a
    tool-call part, in the order of the parts. *)
Theorem thread_is_extended_by_each_event
  (d : ChatDisplay.t) (stream : Stream) (before after : list Event)
  (ev : Event) (s : ChatDisplay.session) :
  events stream = before ++ ev :: after →
  ChatDisplay.run_events before (ChatDisplay.open_stream stream d)
    = (s, Ok tt) →
  let new := items_of (ChatDisplay.handle_event ev s).1 in
  (length (items_of s) ≤ length new ∧
   ∀ i, S i < length (items_of s) → new !! i = items_of s !! i) ∧
  ((∀ content, event ev = "on_chat_model_stream" →
      data ev !! "chunk" = Some content → length content ≤ 1) →
   one_change (items_of s) new) ∧
  (∀ content, event ev = "on_chat_model_stream" →
     data ev !! "chunk" = Some content →
     ∃ kept added,
       new = kept ++ added ∧
       length kept = length (items_of s) ∧
       (∀ i, S i < length (items_of s) → kept !! i = items_of s !! i) ∧
       ThreadItem._sender <$> kept = ThreadItem._sender <$> items_of s ∧
       ThreadItem._sender <$> added =
         roles_opened (current_sender s) content).
Proof.
  intros _ Hrun new.
  assert (current_is_last s) as Hs.
  { pose proof (run_events_wf before (ChatDisplay.open_stream stream d)
                  (open_stream_current_is_last stream d)) as [H _].
    by rewrite Hrun in H. }
  destruct (sound_handle_event ev s Hs) as [_ Hext].
  split; [exact Hext |]. split.
  { intros Hone. by apply handle_event_one_change. }
  intros content He Hd.
  pose proof (handle_event_senders ev content s Hs He Hd) as Hsend.
  unfold senders_of in Hsend. fold new in Hsend.
  destruct Hext as [Hlen Hkeep]. fold new in Hlen, Hkeep.
  set (n := length (items_of s)) in *.
  exists (take n new), (drop n new).
  split; [by rewrite take_drop |].
  split; [rewrite length_take; lia |].
  split.
  { intros i Hi. rewrite lookup_take_lt by lia. by apply Hkeep. }
  rewrite fmap_take, fmap_drop, Hsend.
  assert (n = length (ThreadItem._sender <$> items_of s)) as ->
    by (by rewrite length_fmap).
  by rewrite take_app_length, drop_app_length.
Qed.

Lemma thread_is_extended_by_each_event_witness :
  let content :=
    [text_part " there"; tool_part "calc" "{"; text_part "Done."] in
  let ev := token content in
  let stream :=
    mkStream "<stream>" [turn_start; token [text_part "Hi"]; ev] in
  ∃ s,
    ChatDisplay.run_events [turn_start; token [text_part "Hi"]]
      (ChatDisplay.open_stream stream hello_display) = (s, Ok tt) ∧
    items_of s =
      [hello_item; ThreadItem.append_text "Hi" None blank_agent] ∧
    ∃ kept added,
      items_of (ChatDisplay.handle_event ev s).1 = kept ++ added ∧
      length kept = length (items_of s) ∧
      (∀ i, S i < length (items_of s) → kept !! i = items_of s !! i) ∧
      ThreadItem._sender <$> kept = ThreadItem._sender <$> items_of s ∧
      ThreadItem._sender <$> added = ["tool"; "agent"].
Proof.
  intros content ev stream.
  eexists. split; [reflexivity |]. split; [reflexivity |].
  refine (proj2 (proj2 (thread_is_extended_by_each_event hello_display
    stream [turn_start; token [text_part "Hi"]] [] ev _ eq_refl eq_refl))
    content eq_refl eq_refl).
Defined.

(** X8. An event that is not a token event with several content parts
    (a turn start, a turn end, an event of another kind, or a token
    event with at most one part) changes the thread in at most one way:
    the list is as before, or its last item is changed in place, or one
    item is appended.  A turn-end event never appends more than one item,
    however many parts its output has. *)
Theorem event_makes_one_change
  (d : ChatDisplay.t) (stream : Stream) (before after : list Event)
  (ev : Event) (s : ChatDisplay.session) :
  events stream = before ++ ev :: after →
  ChatDisplay.run_events before (ChatDisplay.open_stream stream d)
    = (s, Ok tt) →
  (∀ content, event ev = "on_chat_model_stream" →
     data ev !! "chunk" = Some content → length content ≤ 1) →
  one_change (items_of s) (items_of (ChatDisplay.handle_event ev s).1).
Proof.
  intros _ Hrun Hone.
  apply handle_event_one_change; [| exact Hone].
  pose proof (run_events_wf before (ChatDisplay.open_stream stream d)
                (open_stream_current_is_last stream d)) as [H _].
  by rewrite Hrun in H.
Qed.

Lemma event_makes_one_change_witness :
  let ev := turn_end [text_part "draft"; tool_part "calc" "{}";
                      text_part "Hi there"] in
  let stream :=
    mkStream "<stream>" [turn_start; token [text_part "Hi"]; ev] in
  ∃ s,
    ChatDisplay.run_events [turn_start; token [text_part "Hi"]]
      (ChatDisplay.open_stream stream hello_display) = (s, Ok tt) ∧
    one_change (items_of s) (items_of (ChatDisplay.handle_event ev s).1).
Proof.
  intros ev stream.
  eexists. split; [reflexivity |].
  refine (event_makes_one_change hello_display stream
    [turn_start; token [text_part "Hi"]] [] ev _ eq_refl eq_refl _).
  intros content He. discriminate He.
Defined.

(** ** The reducer: a text part without its text *)

(** X9. A text part that lacks the key [text] raises [KeyError] in both
    branches, but not at the same point.  In a token event the item is
    opened first: when the current message is not an agent item, an
    empty agent item has been appended to the thread when the exception
    leaves the loop.  In a turn-end event [c['text']] is read first: the
    session is exactly as it was. *)
Theorem text_part_without_text (s : ChatDisplay.session) (c : Part) :
  c !! "type" = Some "text" →
  c !! "text" = None →
  current_differs "agent" s →
  ChatDisplay.stream_part c s =
    (pushed s blank_agent, Raise (KeyError "text")) ∧
  items_of (ChatDisplay.stream_part c s).1 = items_of s ++ [blank_agent] ∧
  ChatDisplay.final_part c s = (s, Raise (KeyError "text")).
Proof.
  intros Ht Hx Hd.
  assert (ChatDisplay.stream_part c s =
            (pushed s blank_agent, Raise (KeyError "text"))) as Hs.
  { rewrite (stream_part_text_missing s c Ht Hx). unfold bind.
    by rewrite (ensure_current_opens s "agent" None blank_agent Hd
                  init_blank_agent). }
  split; [exact Hs |]. split; [by rewrite Hs |].
  by apply final_part_text_missing.
Qed.

Lemma text_part_without_text_witness :
  let c : Part := <["type" := "text"]> ∅ in
  let s := ChatDisplay.open_stream (mkStream "<stream>" []) hello_display in
  items_of (ChatDisplay.stream_part c s).1 = [hello_item; blank_agent] ∧
  ChatDisplay.final_part c s = (s, Raise (KeyError "text")).
Proof.
  intros c s.
  refine (proj2 (text_part_without_text s c eq_refl eq_refl _)).
  by left.
Defined.

(** ** The status and the debug area *)

Lemma shows_part_invariant (status : string) (log : option string) :
  part_invariant (shows status log).
Proof. by split. Qed.

Lemma shows_reset (status : string) (log : option string)
  (s : ChatDisplay.session) :
  shows status log s → shows status log (reset s).
Proof. by intros Hs. Qed.

Lemma handle_event_shows (ev : Event) (s : ChatDisplay.session) :
  shows (event ev)
    ((fun log => log +:+ event ev +:+ NL)
       <$> ChatDisplay.debug (ChatDisplay.self s))
    (ChatDisplay.handle_event ev s).1.
Proof.
  rewrite handle_event_dispatch.
  apply (keeps_dispatch _ (shows_part_invariant _ _) (shows_reset _ _)).
  by split.
Qed.

Lemma status_lines_snoc (evs : list Event) (ev : Event) :
  status_lines (evs ++ [ev]) = status_lines evs +:+ event ev +:+ NL.
Proof.
  induction evs as [|e evs IH]; simpl.
  - by rewrite append_nil_r.
  - rewrite IH. by rewrite !append_assoc.
Qed.

Lemma run_events_shows (evs : list Event) (s : ChatDisplay.session) :
  ∃ handled,
    handled `prefix_of` evs ∧
    ((ChatDisplay.run_events evs s).2 = Ok tt → handled = evs) ∧
    shows (status_after handled (ChatDisplay._status (ChatDisplay.self s)))
      ((fun log => log +:+ status_lines handled)
         <$> ChatDisplay.debug (ChatDisplay.self s))
      (ChatDisplay.run_events evs s).1.
Proof.
  revert s. induction evs as [|ev evs IH] using rev_ind; intros s.
  { exists []. split; [done |]. split; [done |]. split; [done |].
    simpl. destruct (ChatDisplay.debug (ChatDisplay.self s)); simpl;
      [by rewrite append_nil_r | done]. }
  unfold ChatDisplay.run_events in *. rewrite for_each_app.
  destruct (IH s) as (handled & Hpre & Hok & Hst & Hdbg).
  destruct (ChatDisplay.for_each evs ChatDisplay.handle_event s)
    as [s1 [[]|e]] eqn:Hrun; cbn [fst snd] in *.
  - specialize (Hok eq_refl). subst handled.
    exists (evs ++ [ev]). split; [done |]. split; [done |].
    rewrite for_each_one.
    destruct (handle_event_shows ev s1) as [Hst' Hdbg'].
    split.
    + rewrite Hst'. unfold status_after. by rewrite last_snoc.
    + rewrite Hdbg', Hdbg, status_lines_snoc.
      destruct (ChatDisplay.debug (ChatDisplay.self s)); simpl; [| done].
      by rewrite !append_assoc.
  - exists handled. split; [by apply prefix_app_r |].
    split; [discriminate |]. by split.
Qed.

(** X10. Handling an event writes its name to the status and, when there
    is a debug area, appends that name and a line break to it; nothing
    else that the handling does (opening, appending to or replacing an
    item, resetting the current message, raising) touches either.  Over
    a run of the loop the debug area therefore gains one line for each
    event handled, in order, the event that raised included, and the
    status is the name of the last event handled. *)
Theorem events_write_the_status (evs : list Event) (ev : Event)
  (s : ChatDisplay.session) :
  shows (event ev)
    ((fun log => log +:+ event ev +:+ NL)
       <$> ChatDisplay.debug (ChatDisplay.self s))
    (ChatDisplay.handle_event ev s).1 ∧
  ∃ handled,
    handled `prefix_of` evs ∧
    ((ChatDisplay.run_events evs s).2 = Ok tt → handled = evs) ∧
    shows (status_after handled (ChatDisplay._status (ChatDisplay.self s)))
      ((fun log => log +:+ status_lines handled)
         <$> ChatDisplay.debug (ChatDisplay.self s))
      (ChatDisplay.run_events evs s).1.
Proof. split; [apply handle_event_shows | apply run_events_shows]. Qed.

(** ** The reducer: the tokens of one turn *)

Section Turn.

Import ChatDisplay.

(** A session whose current message is the last item is the push of that
    item on the session before it. *)
Lemma session_is_pushed (s : session) (l : list ThreadItem.t)
  (item : ThreadItem.t) :
  items_of s = l ++ [item] →
  current_message s = Some (length l) →
  s = pushed {| self := with_items l (self s); current_message := None |}
        item.
Proof.
  destruct s as [[items st dbg] cur]. unfold items_of. simpl.
  by intros -> ->.
Qed.

Lemma stream_text_continues (s : session) (c : Part) (text : string)
  (item : ThreadItem.t) :
  c !! "type" = Some "text" →
  c !! "text" = Some text →
  ThreadItem._sender item = "agent" →
  stream_part c (pushed s item) =
    (pushed s (ThreadItem.append_text text None item), Ok tt).
Proof.
  intros Ht Hx Hs. rewrite (stream_part_text _ c text Ht Hx). unfold bind.
  rewrite (ensure_current_pushed_same s "agent" None item Hs).
  apply on_current_pushed.
Qed.

Lemma text_token_continues (ev : Event) (text : string) (s : session)
  (l : list ThreadItem.t) (item : ThreadItem.t) :
  text_token ev text →
  items_of s = l ++ [item] →
  current_message s = Some (length l) →
  ThreadItem._sender item = "agent" →
  ∃ s', handle_event ev s = (s', Ok tt) ∧
    items_of s' = l ++ [ThreadItem.append_text text None item] ∧
    current_message s' = Some (length l).
Proof.
  intros (He & c & Hd & Ht & Hx) Hitems Hcur Hs.
  rewrite (handle_event_stream s ev [c] He Hd), for_each_one.
  rewrite (session_is_pushed s l item Hitems Hcur), with_status_pushed.
  rewrite (stream_text_continues _ c text item Ht Hx Hs).
  eexists. by repeat split.
Qed.

Lemma text_token_opens (ev : Event) (text : string) (s : session) :
  text_token ev text →
  current_message s = None →
  ∃ s', handle_event ev s = (s', Ok tt) ∧
    items_of s' =
      items_of s ++ [ThreadItem.append_text text None blank_agent] ∧
    current_message s' = Some (length (items_of s)).
Proof.
  intros (He & c & Hd & Ht & Hx) Hcur.
  rewrite (handle_event_stream s ev [c] He Hd), for_each_one.
  rewrite (stream_text_opens _ c text Ht Hx) by exact Hcur.
  eexists. by repeat split.
Qed.

Lemma text_tokens_continue (tokens : list Event) (texts : list string) :
  Forall2 text_token tokens texts →
  ∀ (s : session) (l : list ThreadItem.t) (item : ThreadItem.t),
    items_of s = l ++ [item] →
    current_message s = Some (length l) →
    ThreadItem._sender item = "agent" →
    ∃ s' item',
      run_events tokens s = (s', Ok tt) ∧
      items_of s' = l ++ [item'] ∧
      current_message s' = Some (length l) ∧
      ThreadItem._sender item' = "agent" ∧
      ThreadItem._text item' = ThreadItem._text item +:+ concat_texts texts.
Proof.
  induction 1 as [|ev text tokens texts Hev Hall IH];
    intros s l item Hitems Hcur Hs.
  - exists s, item. repeat split; try done.
    simpl. by rewrite append_nil_r.
  - destruct (text_token_continues ev text s l item Hev Hitems Hcur Hs)
      as (s1 & Hrun & Hitems1 & Hcur1).
    destruct (IH s1 l (ThreadItem.append_text text None item) Hitems1 Hcur1)
      as (s' & item' & Hrun' & Hitems' & Hcur' & Hs' & Htext').
    { by rewrite append_text_sender. }
    exists s', item'. rewrite run_events_cons, Hrun.
    repeat split; try done.
    rewrite Htext', append_text_text. simpl. by rewrite append_assoc.
Qed.

Lemma text_tokens_open (tokens : list Event) (texts : list string)
  (s : session) :
  Forall2 text_token tokens texts →
  tokens ≠ [] →
  current_message s = None →
  ∃ s' item,
    run_events tokens s = (s', Ok tt) ∧
    items_of s' = items_of s ++ [item] ∧
    current_message s' = Some (length (items_of s)) ∧
    ThreadItem._sender item = "agent" ∧
    ThreadItem._text item = concat_texts texts.
Proof.
  intros Hall Hne Hcur.
  destruct Hall as [|ev text tokens texts Hev Hall]; [done |].
  destruct (text_token_opens ev text s Hev Hcur)
    as (s1 & Hrun & Hitems1 & Hcur1).
  destruct (text_tokens_continue tokens texts Hall s1 (items_of s)
              (ThreadItem.append_text text None blank_agent) Hitems1 Hcur1)
    as (s' & item' & Hrun' & Hitems' & Hcur' & Hs' & Htext').
  { by rewrite append_text_sender. }
  exists s', item'. rewrite run_events_cons, Hrun.
  by repeat split.
Qed.

(** The turn-end event after the tokens, or after none. *)
Lemma text_end_replaces (ev : Event) (final : string) (s : session)
  (l : list ThreadItem.t) (item : ThreadItem.t) :
  text_end ev final →
  items_of s = l ++ [item] →
  current_message s = Some (length l) →
  ThreadItem._sender item = "agent" →
  ∃ s', handle_event ev s = (s', Ok tt) ∧
    items_of s' = l ++ [ThreadItem.update final None item].
Proof.
  intros (He & content & c & Hd & Hlast & Ht & Hx) Hitems Hcur Hs.
  rewrite (handle_event_end s ev content He Hd), Hlast.
  rewrite (session_is_pushed s l item Hitems Hcur), with_status_pushed.
  rewrite (final_part_text _ c final Ht Hx). unfold bind.
  rewrite (ensure_current_pushed_same _ "agent" None item Hs).
  rewrite on_current_pushed. eexists. by split.
Qed.

Lemma text_end_opens (ev : Event) (final : string) (s : session) :
  text_end ev final →
  current_message s = None →
  ∃ s', handle_event ev s = (s', Ok tt) ∧
    items_of s' = items_of s ++ [ThreadItem.update final None blank_agent].
Proof.
  intros (He & content & c & Hd & Hlast & Ht & Hx) Hcur.
  rewrite (handle_event_end s ev content He Hd), Hlast.
  rewrite (final_part_text _ c final Ht Hx). unfold bind.
  rewrite (ensure_current_None _ "agent" None blank_agent)
    by (exact Hcur || exact init_blank_agent).
  rewrite on_current_pushed. eexists. by split.
Qed.

End Turn.

Lemma for_each_nil {S A} (body : A → M S unit) (st : S) :
  ChatDisplay.for_each [] body st = (st, Ok tt).
Proof. reflexivity. Qed.

Lemma process_text_turn
  (d : ChatDisplay.t) (e_start : Event) (tokens : list Event)
  (texts : list string) :
  event e_start = "on_chat_model_start" →
  Forall2 text_token tokens texts →
  (∀ stream,
     tokens ≠ [] →
     events stream = e_start :: tokens →
     ∃ d' item,
       ChatDisplay.process_message stream d = (d', Ok tt) ∧
       ChatDisplay.thread_items d' = ChatDisplay.thread_items d ++ [item] ∧
       ThreadItem._sender item = "agent" ∧
       ThreadItem._text item = concat_texts texts) ∧
  (∀ stream e_end final,
     text_end e_end final →
     events stream = e_start :: tokens ++ [e_end] →
     ∃ d' item,
       ChatDisplay.process_message stream d = (d', Ok tt) ∧
       ChatDisplay.thread_items d' = ChatDisplay.thread_items d ++ [item] ∧
       ThreadItem._sender item = "agent" ∧
       ThreadItem._text item = final).
Proof.
  intros Hstart Hall. split.
  - intros stream Hne Hev.
    unfold ChatDisplay.process_message. rewrite Hev.
    set (s0 := ChatDisplay.open_stream stream d).
    rewrite run_events_cons, (handle_event_start s0 e_start Hstart).
    destruct (text_tokens_open tokens texts
                {| ChatDisplay.self :=
                     ChatDisplay.set_status "on_chat_model_start"
                       (ChatDisplay.self s0);
                   ChatDisplay.current_message := None |}
                Hall Hne eq_refl)
      as (s' & item & Hrun & Hitems & _ & Hs & Htext).
    rewrite Hrun. exists (ChatDisplay.self s'), item.
    by repeat split.
  - intros stream e_end final Hend Hev.
    unfold ChatDisplay.process_message. rewrite Hev.
    set (s0 := ChatDisplay.open_stream stream d).
    rewrite run_events_cons, (handle_event_start s0 e_start Hstart).
    unfold ChatDisplay.run_events. rewrite for_each_app.
    destruct tokens as [|ev tokens].
    + rewrite for_each_nil. cbv beta iota. rewrite for_each_one.
      destruct (text_end_opens e_end final
                  {| ChatDisplay.self :=
                       ChatDisplay.set_status "on_chat_model_start"
                         (ChatDisplay.self s0);
                     ChatDisplay.current_message := None |}
                  Hend eq_refl) as (s' & Hrun & Hitems).
      rewrite Hrun.
      exists (ChatDisplay.self s'), (ThreadItem.update final None blank_agent).
      split; [reflexivity |]. split; [exact Hitems |].
      split; [by rewrite update_sender | apply update_text].
    + destruct (text_tokens_open (ev :: tokens) texts
                  {| ChatDisplay.self :=
                       ChatDisplay.set_status "on_chat_model_start"
                         (ChatDisplay.self s0);
                     ChatDisplay.current_message := None |}
                  Hall ltac:(discriminate) eq_refl)
        as (s1 & item & Hrun & Hitems & Hcur & Hs & _).
      unfold ChatDisplay.run_events in Hrun. rewrite Hrun.
      cbv beta iota. rewrite for_each_one.
      destruct (text_end_replaces e_end final s1 _ item Hend Hitems Hcur Hs)
        as (s' & Hrun' & Hitems').
      rewrite Hrun'.
      exists (ChatDisplay.self s'), (ThreadItem.update final None item).
      split; [reflexivity |]. split; [exact Hitems' |].
      split; [by rewrite update_sender | apply update_text].
Qed.

(** X11. A turn made of a turn-start event and of token events that each
    carry one text part adds one agent item to the thread, however many
    tokens there are, and its text is the texts of the tokens end to end,
    in the order of the stream.  If the stream goes on with a turn-end
    event whose last output part is a text, the thread still has that
    one new item (one is opened if there was no token) and its text is
    the final text. *)
Theorem turn_of_text_tokens
  (d : ChatDisplay.t) (e_start : Event) (tokens : list Event)
  (texts : list string) :
  event e_start = "on_chat_model_start" →
  Forall2 text_token tokens texts →
  (∀ stream,
     tokens ≠ [] →
     events stream = e_start :: tokens →
     ∃ d' item,
       ChatDisplay.process_message stream d = (d', Ok tt) ∧
       ChatDisplay.thread_items d' = ChatDisplay.thread_items d ++ [item] ∧
       ThreadItem._sender item = "agent" ∧
       ThreadItem._text item = concat_texts texts) ∧
  (∀ stream e_end final,
     text_end e_end final →
     events stream = e_start :: tokens ++ [e_end] →
     ∃ d' item,
       ChatDisplay.process_message stream d = (d', Ok tt) ∧
       ChatDisplay.thread_items d' = ChatDisplay.thread_items d ++ [item] ∧
       ThreadItem._sender item = "agent" ∧
       ThreadItem._text item = final).
Proof. apply process_text_turn. Qed.

Lemma turn_of_text_tokens_witness :
  ∃ d' item,
    ChatDisplay.process_message
      (mkStream "<stream>"
         [turn_start; token [text_part "Hi"]; token [text_part " there"];
          turn_end [text_part "Hi there!"]])
      hello_display = (d', Ok tt) ∧
    ChatDisplay.thread_items d' =
      ChatDisplay.thread_items hello_display ++ [item] ∧
    ThreadItem._sender item = "agent" ∧
    ThreadItem._text item = "Hi there!".
Proof.
  refine (proj2 (turn_of_text_tokens hello_display turn_start
    [token [text_part "Hi"]; token [text_part " there"]] ["Hi"; " there"]
    eq_refl _)
    (mkStream "<stream>"
       [turn_start; token [text_part "Hi"]; token [text_part " there"];
        turn_end [text_part "Hi there!"]])
    (turn_end [text_part "Hi there!"]) "Hi there!" _ eq_refl).
  - repeat constructor; by eexists.
  - split; [reflexivity |]. by eexists _, _.
Defined.

(** ** The style sheet *)

Lemma collect_ok {A B} (f : A → result B) (l : list A) :
  Forall (fun a => ∃ b, f a = Ok b) l → ∃ bs, collect f l = Ok bs.
Proof.
  induction 1 as [|a l [b Hb] _ [bs Hbs]]; simpl.
  - by eexists.
  - rewrite Hb, Hbs. by eexists.
Qed.

Lemma collect_raise {A B} (f : A → result B) (l : list A) :
  ¬ Forall (fun a => ∃ b, f a = Ok b) l →
  ∃ a e, a ∈ l ∧ f a = Raise e ∧ collect f l = Raise e.
Proof.
  induction l as [|a l IH]; intros Hn.
  - destruct Hn. constructor.
  - simpl. destruct (f a) as [b|e] eqn:Ha.
    + destruct IH as (a' & e & Hin & Ha' & Hc).
      { intros Hall. apply Hn. constructor; [by exists b | exact Hall]. }
      exists a', e. rewrite Hc. split; [by right | by split].
    + exists a, e. split; [by left | by split].
Qed.

Lemma declaration_ok (kv : string * string) :
  is_Some (style_items !! kv.1) ↔ ∃ d, declaration kv = Ok d.
Proof.
  unfold declaration. destruct (style_items !! kv.1) as [p|]; split.
  - intros _. by eexists.
  - intros _. by eexists.
  - by intros [p Hp].
  - by intros [d Hd].
Qed.

Lemma declaration_raise (kv : string * string) (e : exn) :
  declaration kv = Raise e → e = KeyError kv.1 ∧ style_items !! kv.1 = None.
Proof.
  unfold declaration. destruct (style_items !! kv.1) as [p|]; [done |].
  intros [= <-]. by split.
Qed.

Lemma rule_ok (entry : string * list (string * string)) :
  Forall (fun kv => is_Some (style_items !! kv.1)) entry.2 ↔
  ∃ r, rule entry = Ok r.
Proof.
  unfold rule. split.
  - intros Hall.
    destruct (collect_ok declaration entry.2) as [ds Hds].
    { eapply Forall_impl; [exact Hall |]. intros kv. apply declaration_ok. }
    rewrite Hds. by eexists.
  - intros [r Hr].
    destruct (decide (Forall (fun kv => is_Some (style_items !! kv.1))
                        entry.2)) as [Hall | Hn]; [exact Hall | exfalso].
    destruct (collect_raise declaration entry.2) as (kv & e & _ & _ & Hc).
    { intros Hall. apply Hn. eapply Forall_impl; [exact Hall |].
      intros kv. apply declaration_ok. }
    by rewrite Hc in Hr.
Qed.

Lemma collect_raise_inv {A B} (f : A → result B) (l : list A) (e : exn) :
  collect f l = Raise e → ∃ a, a ∈ l ∧ f a = Raise e.
Proof.
  induction l as [|a l IH]; simpl; [discriminate |].
  destruct (f a) as [b|e'] eqn:Ha.
  - destruct (collect f l) as [bs|e'']; [discriminate |].
    intros [= ->]. destruct (IH eq_refl) as (a' & Hin & Ha').
    exists a'. split; [by right | exact Ha'].
  - intros [= ->]. exists a. split; [by left | exact Ha].
Qed.

Lemma rule_raise (entry : string * list (string * string)) (e : exn) :
  rule entry = Raise e →
  ∃ key, e = KeyError key ∧ style_items !! key = None.
Proof.
  unfold rule. intros Hr.
  destruct (collect declaration entry.2) as [ds|e'] eqn:Hc;
    [discriminate |].
  injection Hr as ->.
  destruct (collect_raise_inv declaration entry.2 e Hc) as (kv & _ & Hd).
  exists kv.1. by apply declaration_raise.
Qed.

Lemma unpack_known_keys (table : list (string * list (string * string))) :
  (known_keys table → ∃ unpacked, unpack table = Ok unpacked) ∧
  (¬ known_keys table →
   ∃ key, unpack table = Raise (KeyError key) ∧ style_items !! key = None).
Proof.
  unfold unpack, known_keys. split.
  - intros Hall. destruct (collect_ok rule table) as [rules Hr].
    { eapply Forall_impl; [exact Hall |]. intros entry. apply rule_ok. }
    rewrite Hr. by eexists.
  - intros Hn. destruct (collect_raise rule table) as (entry & e & _ & He & Hc).
    { intros Hall. apply Hn. eapply Forall_impl; [exact Hall |].
      intros entry. apply rule_ok. }
    rewrite Hc. destruct (rule_raise entry e He) as (key & -> & Hk).
    by exists key.
Qed.

Lemma code_style_info_known_keys : known_keys _CODE_STYLE_INFO.
Proof. unfold known_keys. compute_done. Qed.

Lemma get_code_css_ok (cache : option string) :
  ∃ css, _get_code_css cache = (Some css, Ok css) ∧
    (∀ c, cache = Some c → css = c).
Proof.
  destruct cache as [c|].
  - exists c. split; [reflexivity |]. by intros c' [= ->].
  - destruct (proj1 (unpack_known_keys _CODE_STYLE_INFO)
                code_style_info_known_keys) as [unpacked Hu].
    unfold _get_code_css. rewrite Hu. eexists. split; [reflexivity | done].
Qed.

(** X12. The style sheet of a table is built exactly when every property
    key of every entry is one of the keys of [style_items] ([bg], [br],
    [c], [s], [w]); with any other key the generator raises [KeyError]
    for a key that [style_items] lacks. *)
Theorem style_sheet_needs_known_keys
  (table : list (string * list (string * string))) :
  (known_keys table → ∃ unpacked, unpack table = Ok unpacked) ∧
  (¬ known_keys table →
   ∃ key, unpack table = Raise (KeyError key) ∧ style_items !! key = None).
Proof. apply unpack_known_keys. Qed.

Lemma style_sheet_needs_known_keys_witness :
  ∃ unpacked, unpack _CODE_STYLE_INFO = Ok unpacked.
Proof.
  apply (proj1 (style_sheet_needs_known_keys _CODE_STYLE_INFO)).
  unfold known_keys. compute_done.
Defined.

(** X13. [_get_code_css] never raises, whatever the module variable
    holds: the table of the module has known keys only.  It answers the
    stored style sheet when there is one and stores the one it computes
    otherwise, so that every later call answers the same string and
    leaves the variable as it is. *)
Theorem code_css_is_computed_once (cache : option string) :
  ∃ css,
    _get_code_css cache = (Some css, Ok css) ∧
    (∀ c, cache = Some c → css = c) ∧
    _get_code_css (Some css) = (Some css, Ok css).
Proof.
  destruct (get_code_css_ok cache) as (css & Hc & Hsame).
  exists css. by repeat split.
Qed.

(** ** The status setter and [send_message] *)

Section Widget.

Import ChatWidget.

Lemma set_status_ok (value : string) (w : t) :
  ∃ css,
    set_status value w =
      ({| chat := ChatDisplay.set_status value (chat w);
          status_label := css +:+ "Status: " +:+ value;
          input := input w;
          _message_task := _message_task w;
          _CODE_CSS := Some css |}, Ok tt) ∧
    (∀ c, _CODE_CSS w = Some c → css = c).
Proof.
  destruct (get_code_css_ok (_CODE_CSS w)) as (css & Hc & Hsame).
  exists css. split; [| exact Hsame].
  unfold set_status. by rewrite Hc.
Qed.

End Widget.

(** X14. The status setter never raises.  On the fields of the display
    it does what [set_status] does in the reducer (the status is the
    value, the debug area gains the value and a line break); the label
    shows the style sheet followed by [Status: ] and the value; the input
    and the pending task are untouched; and the style sheet is stored
    from then on, the stored one being reused when there was one. *)
Theorem status_setter_never_raises (value : string) (w : ChatWidget.t) :
  ∃ css,
    ChatWidget.set_status value w =
      ({| ChatWidget.chat := ChatDisplay.set_status value (ChatWidget.chat w);
          ChatWidget.status_label := css +:+ "Status: " +:+ value;
          ChatWidget.input := ChatWidget.input w;
          ChatWidget._message_task := ChatWidget._message_task w;
          ChatWidget._CODE_CSS := Some css |}, Ok tt) ∧
    (∀ c, ChatWidget._CODE_CSS w = Some c → css = c).
Proof. apply set_status_ok. Qed.

Section Send.

Import ChatWidget.

Lemma set_status_labelled (value : string) (w : t) :
  ∃ css,
    set_status value w = (labelled value css w, Ok tt) ∧
    (∀ c, _CODE_CSS w = Some c → css = c).
Proof. apply set_status_ok. Qed.

Lemma set_status_stored (value css : string) (w : t) :
  _CODE_CSS w = Some css →
  set_status value w = (labelled value css w, Ok tt).
Proof.
  intros Hc. destruct (set_status_labelled value w) as (css' & -> & Hsame).
  by rewrite (Hsame css Hc).
Qed.

Lemma init_user_item (text : string) :
  ThreadItem.__init__ text "user" None = Ok (user_item text).
Proof. reflexivity. Qed.

Lemma send_message_spec (env : asyncio) (w : t) :
  ∃ w' css,
    send_message env w = (w', Ok tt) ∧
    (∀ c, _CODE_CSS w = Some c → css = c) ∧
    ChatDisplay.thread_items (chat w') =
      ChatDisplay.thread_items (chat w) ++ [user_item (input w)] ∧
    input w' = EmptyString ∧
    _message_task w' = Some (length (ChatDisplay.thread_items (chat w))) ∧
    ChatDisplay._status (chat w') = "Created task: " +:+ created_task env ∧
    ChatDisplay.debug (chat w') =
      (fun log => log +:+ send_message_lines (input w) env)
        <$> ChatDisplay.debug (chat w) ∧
    status_label w' =
      css +:+ "Status: " +:+ "Created task: " +:+ created_task env ∧
    _CODE_CSS w' = Some css.
Proof.
  destruct (set_status_labelled "User clicked" w) as (css & H1 & Hsame).
  unfold send_message, bind. rewrite H1.
  rewrite (set_status_stored _ css) by reflexivity.
  unfold set_input, modify, on_chat, ChatDisplay._push_new_message.
  cbn [chat input labelled]. rewrite init_user_item.
  rewrite (set_status_stored _ css) by reflexivity.
  rewrite (set_status_stored _ css) by reflexivity.
  unfold set_message_task, modify.
  rewrite (set_status_stored _ css) by reflexivity.
  eexists _, css. split; [reflexivity |]. split; [exact Hsame |].
  cbn. repeat split.
  destruct (ChatDisplay.debug (chat w)) as [log|]; [| reflexivity].
  cbn. f_equal. unfold send_message_lines. by rewrite !append_assoc.
Qed.

End Send.

(** X15. [send_message] never raises, whatever the input area holds, the
    empty text included: it appends to the thread one user item whose
    text is the input and leaves the items before it as they were,
    empties the input area, records the task for that item, and ends
    with the status of the created task; the debug area gains the five
    status lines of the handler, in order. *)
Theorem send_message_appends_the_input (env : asyncio) (w : ChatWidget.t) :
  ∃ w' css,
    ChatWidget.send_message env w = (w', Ok tt) ∧
    (∀ c, ChatWidget._CODE_CSS w = Some c → css = c) ∧
    ChatDisplay.thread_items (ChatWidget.chat w') =
      ChatDisplay.thread_items (ChatWidget.chat w)
        ++ [user_item (ChatWidget.input w)] ∧
    ChatWidget.input w' = EmptyString ∧
    ChatWidget._message_task w' =
      Some (length (ChatDisplay.thread_items (ChatWidget.chat w))) ∧
    ChatDisplay._status (ChatWidget.chat w') =
      "Created task: " +:+ created_task env ∧
    ChatDisplay.debug (ChatWidget.chat w') =
      (fun log => log +:+ send_message_lines (ChatWidget.input w) env)
        <$> ChatDisplay.debug (ChatWidget.chat w) ∧
    ChatWidget.status_label w' =
      css +:+ "Status: " +:+ "Created task: " +:+ created_task env ∧
    ChatWidget._CODE_CSS w' = Some css.
Proof. apply send_message_spec. Qed.

(** X16. From the construction of the display to the end of a turn: a
    new display has an empty thread; after the user has typed a message
    and clicked, and the stream of the agent (a turn start, text tokens,
    a turn end with a final text) has been processed, the thread holds
    exactly two items, the user item with the message and one agent item
    with the final text, and no step has raised. *)
Theorem submit_then_turn
  (debug : bool) (cache : option string) (env : asyncio) (message : string)
  (stream : Stream) (e_start e_end : Event) (tokens : list Event)
  (texts : list string) (final : string) :
  event e_start = "on_chat_model_start" →
  Forall2 text_token tokens texts →
  text_end e_end final →
  events stream = e_start :: tokens ++ [e_end] →
  ∃ w0 w1 d' agent,
    ChatWidget.__init__ debug cache = (w0, Ok tt) ∧
    ChatDisplay.thread_items (ChatWidget.chat w0) = [] ∧
    ChatWidget.send_message env (typed message w0) = (w1, Ok tt) ∧
    ChatWidget.input w1 = EmptyString ∧
    ChatDisplay.process_message stream (ChatWidget.chat w1) = (d', Ok tt) ∧
    ChatDisplay.thread_items d' = [user_item message; agent] ∧
    ThreadItem._sender agent = "agent" ∧
    ThreadItem._text agent = final.
Proof.
  intros Hstart Hall Hend Hev.
  unfold ChatWidget.__init__.
  match goal with
  | |- context [ChatWidget.set_status "Idle" ?w] =>
      destruct (set_status_labelled "Idle" w) as (css & -> & _);
      set (w0 := labelled "Idle" css w)
  end.
  destruct (send_message_spec env (typed message w0))
    as (w1 & css' & Hsend & _ & Hitems & Hinput & _).
  destruct (proj2 (process_text_turn (ChatWidget.chat w1) e_start tokens
                     texts Hstart Hall) stream e_end final Hend Hev)
    as (d' & agent & Hrun & Hthread & Hs & Ht).
  exists w0, w1, d', agent.
  split; [reflexivity |]. split; [reflexivity |].
  split; [exact Hsend |]. split; [exact Hinput |].
  split; [exact Hrun |]. split; [| by split].
  rewrite Hthread, Hitems. reflexivity.
Qed.

Lemma submit_then_turn_witness :
  ∃ w0 w1 d' agent,
    ChatWidget.__init__ true None = (w0, Ok tt) ∧
    ChatDisplay.thread_items (ChatWidget.chat w0) = [] ∧
    ChatWidget.send_message (mkAsyncio "<loop>" "<task>") (typed "hello" w0)
      = (w1, Ok tt) ∧
    ChatWidget.input w1 = EmptyString ∧
    ChatDisplay.process_message
      (mkStream "<stream>"
         [turn_start; token [text_part "Hi"]; token [text_part " there"];
          turn_end [text_part "Hi there"]])
      (ChatWidget.chat w1) = (d', Ok tt) ∧
    ChatDisplay.thread_items d' = [user_item "hello"; agent] ∧
    ThreadItem._sender agent = "agent" ∧
    ThreadItem._text agent = "Hi there".
Proof.
  refine (submit_then_turn true None (mkAsyncio "<loop>" "<task>") "hello"
    (mkStream "<stream>"
       [turn_start; token [text_part "Hi"]; token [text_part " there"];
        turn_end [text_part "Hi there"]])
    turn_start (turn_end [text_part "Hi there"])
    [token [text_part "Hi"]; token [text_part " there"]] ["Hi"; " there"]
    "Hi there" eq_refl _ _ eq_refl).
  - repeat constructor; by eexists.
  - split; [reflexivity |]. by eexists _, _.
Defined.

(** ** The reducer: events of other kinds, and tool calls *)

Section Others.

Import ChatDisplay.

Lemma other_events_run (evs : list Event) (s : session) :
  Forall other_event evs →
  ∃ s', run_events evs s = (s', Ok tt) ∧
    items_of s' = items_of s ∧
    current_message s' = current_message s.
Proof.
  intros Hall. revert s.
  induction Hall as [|ev evs (H1 & H2 & H3) _ IH]; intros s.
  - by exists s.
  - rewrite run_events_cons, (handle_event_other s ev H1 H2 H3).
    destruct (IH (with_status (event ev) s)) as (s' & -> & Hi & Hc).
    by exists s'.
Qed.

Lemma stream_tool_continues (s : session) (c : Part) (input : string)
  (item : ThreadItem.t) :
  c !! "type" = Some "tool_use" →
  c !! "input" = Some input →
  ThreadItem._sender item = "tool" →
  stream_part c (pushed s item) =
    (pushed s (ThreadItem.append_text input (c !! "name") item), Ok tt).
Proof.
  intros Ht Hx Hs. rewrite (stream_part_tool _ c Ht). unfold bind.
  rewrite (ensure_current_pushed_same s "tool" (c !! "name") item Hs).
  rewrite Hx. apply on_current_pushed.
Qed.

Lemma tool_fragment_continues (ev : Event) (input : string) (s : session)
  (l : list ThreadItem.t) (item : ThreadItem.t) :
  tool_fragment ev input →
  items_of s = l ++ [item] →
  current_message s = Some (length l) →
  ThreadItem._sender item = "tool" →
  ∃ s', handle_event ev s = (s', Ok tt) ∧
    items_of s' = l ++ [ThreadItem.append_text input None item] ∧
    current_message s' = Some (length l).
Proof.
  intros (He & c & Hd & Ht & Hn & Hx) Hitems Hcur Hs.
  rewrite (handle_event_stream s ev [c] He Hd), for_each_one.
  rewrite (session_is_pushed s l item Hitems Hcur), with_status_pushed.
  rewrite (stream_tool_continues _ c input item Ht Hx Hs), Hn.
  eexists. by repeat split.
Qed.

Lemma tool_fragments_continue (fragments : list Event)
  (inputs : list string) :
  Forall2 tool_fragment fragments inputs →
  ∀ (s : session) (l : list ThreadItem.t) (item : ThreadItem.t),
    items_of s = l ++ [item] →
    current_message s = Some (length l) →
    ThreadItem._sender item = "tool" →
    ∃ s' item',
      run_events fragments s = (s', Ok tt) ∧
      items_of s' = l ++ [item'] ∧
      ThreadItem._sender item' = "tool" ∧
      ThreadItem._tool_name item' = ThreadItem._tool_name item ∧
      ThreadItem._text item' = ThreadItem._text item +:+ concat_texts inputs.
Proof.
  induction 1 as [|ev input fragments inputs Hev Hall IH];
    intros s l item Hitems Hcur Hs.
  - exists s, item. repeat split; try done.
    simpl. by rewrite append_nil_r.
  - destruct (tool_fragment_continues ev input s l item Hev Hitems Hcur Hs)
      as (s1 & Hrun & Hitems1 & Hcur1).
    destruct (IH s1 l (ThreadItem.append_text input None item) Hitems1 Hcur1)
      as (s' & item' & Hrun' & Hitems' & Hs' & Hn' & Htext').
    { by rewrite append_text_sender. }
    exists s', item'. rewrite run_events_cons, Hrun.
    repeat split; try done.
    rewrite Htext', append_text_text. simpl. by rewrite append_assoc.
Qed.

Lemma process_tool_call (d : t) (stream : Stream) (e_first : Event)
  (c : Part) (name : string) (fragments : list Event)
  (inputs : list string) :
  events stream = e_first :: fragments →
  tool_opening e_first c name →
  Forall2 tool_fragment fragments inputs →
  ∃ d' item,
    process_message stream d = (d', Ok tt) ∧
    thread_items d' = thread_items d ++ [item] ∧
    ThreadItem._sender item = "tool" ∧
    ThreadItem._tool_name item = Some name ∧
    ThreadItem._text item =
      default EmptyString (c !! "input") +:+ concat_texts inputs.
Proof.
  intros Hev (He & Hd & Ht & Hn) Hall.
  unfold process_message. rewrite Hev.
  set (s0 := open_stream stream d).
  rewrite run_events_cons, (handle_event_stream s0 e_first [c] He Hd).
  rewrite for_each_one.
  rewrite (stream_tool_opens _ c Ht) by (by left).
  destruct (tool_item_of_fields c) as (Hs & Htx & Hname).
  destruct (tool_fragments_continue fragments inputs Hall
              (pushed (with_status "on_chat_model_stream" s0)
                 (tool_item_of c))
              (thread_items d) (tool_item_of c) eq_refl eq_refl Hs)
    as (s' & item' & Hrun & Hitems & Hs' & Hn' & Htext').
  rewrite Hrun. exists (self s'), item'.
  split; [reflexivity |]. split; [exact Hitems |]. split; [exact Hs' |].
  split; [by rewrite Hn', Hname |]. by rewrite Htext', Htx.
Qed.

End Others.

(** X17. Events of a kind other than the three that the loop knows only
    write the status: a run of such events ends well and leaves the
    items of the thread and the current message as they were, so that
    tokens arriving before and after them still go to the same item. *)
Theorem other_events_only_write_the_status
  (evs : list Event) (s : ChatDisplay.session) :
  Forall other_event evs →
  ∃ s', ChatDisplay.run_events evs s = (s', Ok tt) ∧
    items_of s' = items_of s ∧
    ChatDisplay.current_message s' = ChatDisplay.current_message s.
Proof. apply other_events_run. Qed.

Lemma other_events_only_write_the_status_witness :
  let s :=
    pushed (ChatDisplay.open_stream (mkStream "<stream>" []) hello_display)
      (ThreadItem.append_text "Hi" None blank_agent) in
  ∃ s', ChatDisplay.run_events
          [mkEvent "on_chain_start" ∅; mkEvent "on_tool_end" ∅] s
        = (s', Ok tt) ∧
    items_of s' = items_of s ∧
    ChatDisplay.current_message s' = ChatDisplay.current_message s.
Proof.
  intros s.
  apply (other_events_only_write_the_status
           [mkEvent "on_chain_start" ∅; mkEvent "on_tool_end" ∅] s).
  repeat constructor; discriminate.
Defined.

(** X18. A tool call streamed as a token event that carries the name of
    the tool, followed by token events that carry fragments of its input
    and no name, adds one tool item to the thread; the item keeps the
    name of the first event, and its text is the input of the first
    event, if it has one, followed by the fragments in the order of the
    stream. *)
Theorem tool_call_keeps_its_name
  (d : ChatDisplay.t) (stream : Stream) (e_first : Event) (c : Part)
  (name : string) (fragments : list Event) (inputs : list string) :
  events stream = e_first :: fragments →
  tool_opening e_first c name →
  Forall2 tool_fragment fragments inputs →
  ∃ d' item,
    ChatDisplay.process_message stream d = (d', Ok tt) ∧
    ChatDisplay.thread_items d' = ChatDisplay.thread_items d ++ [item] ∧
    ThreadItem._sender item = "tool" ∧
    ThreadItem._tool_name item = Some name ∧
    ThreadItem._text item =
      default EmptyString (c !! "input") +:+ concat_texts inputs.
Proof. apply process_tool_call. Qed.

Lemma tool_call_keeps_its_name_witness :
  let c : Part := <["type" := "tool_use"]> (<["name" := "calc"]> ∅) in
  let fragment (input : string) : Part :=
    <["type" := "tool_use"]> (<["input" := input]> ∅) in
  ∃ d' item,
    ChatDisplay.process_message
      (mkStream "<stream>"
         [token [c]; token [fragment "{'x': "]; token [fragment "1}"]])
      hello_display = (d', Ok tt) ∧
    ChatDisplay.thread_items d' =
      ChatDisplay.thread_items hello_display ++ [item] ∧
    ThreadItem._sender item = "tool" ∧
    ThreadItem._tool_name item = Some "calc" ∧
    ThreadItem._text item =
      default EmptyString (c !! "input")
        +:+ concat_texts ["{'x': "; "1}"].
Proof.
  intros c fragment.
  refine (tool_call_keeps_its_name hello_display
    (mkStream "<stream>"
       [token [c]; token [fragment "{'x': "]; token [fragment "1}"]])
    (token [c]) c "calc"
    [token [fragment "{'x': "]; token [fragment "1}"]]
    ["{'x': "; "1}"] eq_refl _ _).
  - by repeat split.
  - repeat constructor; by eexists.
Defined.
